(** * persist: a persistence (replay) log with rotation

    A shallow embedding of the Go package [persist]: the file destination
    (segment files, the rotation state machine), the concatenating reader
    [MultiReadCloser], and the log coordinator [pLog].

    Conventions of the embedding.
    - Go's [error] is the inductive type [error]; a nil error is [None].
      Errors built with [fmt.Errorf] are [Errorf msg] with the formatted
      message, so that two errors are compared as the code's callers and
      tests compare them: by their text.
    - The operating system is an explicit [World]: the directory (names to
      inodes), the contents of the inodes, a table of paths on which the OS
      refuses an operation (missing directory, permissions, ...), and the
      wall clock.  Every function that touches the OS takes a world and
      returns the world after it.
    - Calls to the log15 logger only produce output and are left out, apart
      from the critical messages of the coordinator, whose latch
      [pLogError] is program state. *)

From Stdlib Require Import ZArith Lia Ascii String DecimalString List Bool.
From Stdlib.Strings Require Import Byte.
From stdpp Require Import base option list gmap strings sorting.

Open Scope string_scope.

(** ** Errors *)

Inductive errno : Type := EEXIST | ENOENT | EACCES | ENOSPC | EIO.

Definition errno_string (e : errno) : string :=
  match e with
  | EEXIST => "file exists"
  | ENOENT => "no such file or directory"
  | EACCES => "permission denied"
  | ENOSPC => "no space left on device"
  | EIO => "input/output error"
  end.

Inductive error : Type :=
| EOF                                        (* io.EOF *)
| ErrExist                                   (* os.ErrExist *)
| ErrInvalid                                 (* os.ErrInvalid *)
| PathError (op path : string) (e : errno)   (* *os.PathError *)
| LinkError (op old new : string) (e : errno) (* *os.LinkError *)
| Errorf (msg : string).                     (* fmt.Errorf(...) *)

#[global] Instance errno_eq_dec : EqDecision errno.
Proof. solve_decision. Defined.

#[global] Instance error_eq_dec : EqDecision error.
Proof. solve_decision. Defined.

(** [err.Error()] *)
Definition Error (e : error) : string :=
  match e with
  | EOF => "EOF"
  | ErrExist => "file already exists"
  | ErrInvalid => "invalid argument"
  | PathError op path e => op ++ " " ++ path ++ ": " ++ errno_string e
  | LinkError op old new e =>
      op ++ " " ++ old ++ " " ++ new ++ ": " ++ errno_string e
  | Errorf msg => msg
  end.

(** [%d] of a non-negative integer *)
Definition itoa (n : nat) : string := NilEmpty.string_of_uint (Nat.to_uint n).

(** ** Package [strings] *)

Module strings.

Definition HasSuffix (s suffix : string) : bool :=
  let n := String.length s in
  let m := String.length suffix in
  (m <=? n)%nat && String.eqb (substring (n - m) m s) suffix.

Definition TrimSuffix (s suffix : string) : string :=
  if HasSuffix s suffix
  then substring 0 (String.length s - String.length suffix) s
  else s.

Fixpoint ContainsRune (chars : string) (c : ascii) : bool :=
  match chars with
  | EmptyString => false
  | String d rest => Ascii.eqb c d || ContainsRune rest c
  end.

Fixpoint ContainsAny (s chars : string) : bool :=
  match s with
  | EmptyString => false
  | String c rest => ContainsRune chars c || ContainsAny rest chars
  end.

End strings.

(** ** The operating system *)

(** An open [*os.File]: the name it was opened under and the inode it is
    bound to (a rename does not disturb an open descriptor). *)
Record File : Type := mkFile { f_name : string; f_ino : nat }.

#[global] Instance File_eq_dec : EqDecision File.
Proof. solve_decision. Defined.

(** [time.Now().UTC()], broken down *)
Record utc : Type := mkUtc {
  year : nat; month : nat; day : nat; hour : nat; minute : nat; second : nat
}.

Record World : Type := mkWorld {
  names : gmap string nat;          (* directory entries: path to inode *)
  data : gmap nat (list Byte.byte);      (* inode contents *)
  faults : gmap string errno;       (* paths on which the OS refuses *)
  now : utc                         (* wall clock *)
}.

Definition set_names (f : gmap string nat → gmap string nat) (w : World) :=
  mkWorld (f (names w)) (data w) (faults w) (now w).
Definition set_data (f : gmap nat (list Byte.byte) → gmap nat (list Byte.byte)) (w : World) :=
  mkWorld (names w) (f (data w)) (faults w) (now w).

(** The paths present in the directory. *)
Definition paths (w : World) : gset string := dom (names w).

Module os.

(** [os.Open(name)]: open for reading. *)
Definition Open (name : string) (w : World) : File + error :=
  match faults w !! name with
  | Some e => inr (PathError "open" name e)
  | None =>
      match names w !! name with
      | Some i => inl (mkFile name i)
      | None => inr (PathError "open" name ENOENT)
      end
  end.

(** [os.OpenFile(name, os.O_WRONLY|os.O_CREATE|os.O_EXCL, 0660)]: create
    the file, failing when the name exists. *)
Definition OpenFile_excl (name : string) (w : World) : (File + error) * World :=
  match faults w !! name with
  | Some e => (inr (PathError "open" name e), w)
  | None =>
      match names w !! name with
      | Some _ => (inr (PathError "open" name EEXIST), w)
      | None =>
          let i := fresh (dom (data w)) in
          (inl (mkFile name i),
           set_data (insert i []) (set_names (insert name i) w))
      end
  end.

(** [os.Rename(oldpath, newpath)]: an existing [newpath] is replaced. *)
Definition Rename (old new : string) (w : World) : option error * World :=
  match faults w !! old, faults w !! new with
  | Some e, _ | None, Some e => (Some (LinkError "rename" old new e), w)
  | None, None =>
      match names w !! old with
      | None => (Some (LinkError "rename" old new ENOENT), w)
      | Some i => (None, set_names (fun m => <[new := i]> (delete old m)) w)
      end
  end.

(** [f.Write(p)] on an open descriptor: the bytes are appended. *)
Definition Write (f : File) (p : list Byte.byte) (w : World) : (Z * option error) * World :=
  match faults w !! f_name f with
  | Some e => ((0%Z, Some (PathError "write" (f_name f) e)), w)
  | None =>
      ((Z.of_nat (List.length p), None),
       set_data (fun d => <[f_ino f := (default [] (d !! f_ino f) ++ p)%list]> d) w)
  end.

End os.

(** ** Package [path/filepath]: [Glob]

    The two patterns of the program are [prefix*] and [prefix*.plog], with
    a prefix free of the meta characters [* ? [ \].  The star matches any
    run of characters other than the separator, so the pattern selects the
    directory entries [prefix ++ mid ++ suffix] with no ['/'] in [mid].
    [Glob] returns the names it read from the directory in sorted order and
    ignores I/O errors (a missing directory gives no match). *)

Definition String_le (s1 s2 : string) : Prop := String.leb s1 s2 = true.

#[global] Instance String_le_dec : RelDecision String_le.
Proof. intros s1 s2. unfold String_le. apply _. Defined.

Module sort.
(** [sort.Strings]: ascending, bytewise lexicographic order. *)
Definition Strings (l : list string) : list string := merge_sort String_le l.
End sort.

Module filepath.

Definition star_match (pre suf name : string) : bool :=
  let n := String.length name in
  let a := String.length pre in
  let b := String.length suf in
  (a + b <=? n)%nat
  && String.prefix pre name
  && strings.HasSuffix name suf
  && negb (strings.ContainsAny (substring a (n - a - b) name) "/").

(** [filepath.Glob(pre + "*" + suf)] *)
Definition Glob (pre suf : string) (w : World) : list string :=
  sort.Strings (filter (fun n => star_match pre suf n = true) (elements (paths w))).

End filepath.

(** ** The file destination (segment files) *)

Module FileDest.

Definition newExt := "-new.plog".   (* new log with incomplete initial snapshot *)
Definition currExt := "-curr.plog". (* current log with complete initial snapshot *)
Definition oldExt := "-old.plog".   (* old log no longer needed *)

Definition pad (width n : nat) : string :=
  let s := itoa n in
  string_of_list_ascii (repeat "0"%char (width - String.length s)) ++ s.

(** [t.Format(dateFmt)] with [dateFmt = "-20060102-150405"] *)
Definition Format_dateFmt (t : utc) : string :=
  "-" ++ pad 4 (year t) ++ pad 2 (month t) ++ pad 2 (day t) ++
  "-" ++ pad 2 (hour t) ++ pad 2 (minute t) ++ pad 2 (second t).

Record fileDest : Type := mkFileDest {
  basepath : string;
  replayReaders : list File;
  outputFile : option File;
  outputFilename : string;
  oldFilename : string;  (* name of previous file (used at end of rotation) *)
  snapOK : bool          (* true when the initial snapshot is completed *)
}.

(** The candidate name of iteration [i] of [createNewFile]: the rune
    ['`'] (96, just before ['a']) stands for "no suffix". *)
Definition stem (name : string) (i : nat) : string :=
  if (i =? 96)%nat then name else name ++ String (ascii_of_nat i) "".

(** A stem is taken when some directory entry begins with it. *)
Definition taken (n : string) (w : World) : bool :=
  negb (bool_decide (filepath.Glob n "" w = [])).

(** The loop [for i := '`'; i <= 'z'; i++] of [createNewFile], with [k]
    the number of iterations left. *)
Fixpoint createNewFile_from (k i : nat) (name ext : string) (w : World)
  : (File * string + error) * World :=
  match k with
  | O => (inr (Errorf "Too many log files in the same second"), w)
  | S k' =>
      let n := stem name i in
      if taken n w then createNewFile_from k' (S i) name ext w
      else
        let n := n ++ ext in
        match os.OpenFile_excl n w with
        | (inl fd, w') => (inl (fd, n), w')
        | (inr err, w') =>
            if bool_decide (err ≠ ErrExist) then (inr err, w')
            else createNewFile_from k' (S i) name ext w'
        end
  end.

Definition createNewFile (name ext : string) (w : World)
  : (File * string + error) * World :=
  createNewFile_from 27 96 name ext w.

Definition set_output (outF : option File) (outFn : string) (snap : bool)
  (fd : fileDest) : fileDest :=
  mkFileDest (basepath fd) (replayReaders fd) outF outFn (oldFilename fd) snap.

(** start a new log file and use either the newExt (normal case) or the
    currExt (when creating the very first log file since there's no
    preceding currExt file) *)
Definition startNew (useNewExt : bool) (fd : fileDest) (w : World)
  : (option error * fileDest) * World :=
  let date := Format_dateFmt (now w) in
  let name := basepath fd ++ date in
  let ext := if useNewExt then newExt else currExt in
  match createNewFile name ext w with
  | (inr err, w') =>
      ((Some (Errorf ("Cannot create new log file: " ++ Error err)), fd), w')
  | (inl (outF, outFn), w') =>
      ((None, set_output (Some outF) outFn false fd), w')
  end.

Definition invalid_basepath : error :=
  Errorf "basepath cannot contain '*', '?', '[', '\' or '.'".
Definition no_existing_log (basepath : string) : error :=
  Errorf ("No existing log file found at " ++ basepath).
Definition ambiguous_segments (basepath : string) : error :=
  Errorf ("Cannot determine current (&new) logs from basepath " ++ basepath).
Definition error_opening (name : string) (err : error) : error :=
  Errorf ("error opening " ++ name ++ ": " ++ Error err).

(** The classification of the sorted enumeration [m] (non-empty): the
    replay readers and the previous file name, or the error. *)
Definition open_replay (basepath : string) (m : list string) (w : World)
  : list File * string + error :=
  let lm := (List.length m - 1)%nat in
  if strings.HasSuffix (nth lm m "") currExt then
    (* the most recent log file is current, i.e. it's all we need *)
    match os.Open (nth lm m "") w with
    | inr err => inr (error_opening (nth lm m "") err)
    | inl f0 => inl ([f0], nth lm m "")
    end
  else if strings.HasSuffix (nth lm m "") newExt && (0 <? lm)%nat
          && strings.HasSuffix (nth (lm - 1) m "") currExt then
    (* the most recent log is not a complete snapshot, we need it and
       the prior log file (and we have both) *)
    match os.Open (nth (lm - 1) m "") w with
    | inr err => inr (error_opening (nth (lm - 1) m "") err)
    | inl f0 =>
        match os.Open (nth lm m "") w with
        | inr err => inr (error_opening (nth lm m "") err)
        | inl f1 => inl ([f0; f1], nth lm m "")
        end
    end
  else inr (ambiguous_segments basepath).

(** NewFileDest creates or opens a file for logging.  [None] is the nil
    destination returned with an error. *)
Definition NewFileDest (basepath : string) (create : bool) (w : World)
  : (fileDest + error) * World :=
  if strings.ContainsAny basepath "*?[\." then (inr invalid_basepath, w)
  else
    let m := filepath.Glob basepath ".plog" w in
    let fd := mkFileDest basepath [] None "" "" false in
    let classified :=
      if (0 <? List.length m)%nat then
        let m := sort.Strings m in
        match open_replay basepath m w with
        | inr err => inr err
        | inl (rr, old) =>
            inl (mkFileDest basepath rr None "" old false)
        end
      else if negb create then inr (no_existing_log basepath)
      else inl fd in
    match classified with
    | inr err => (inr err, w)
    | inl fd =>
        (* Open new destination *)
        match startNew (0 <? List.length m)%nat fd w with
        | ((Some err, _), w') => (inr err, w')
        | ((None, fd'), w') => (inl fd', w')
        end
    end.

Definition Close (fd : fileDest) : fileDest :=
  let fd := mkFileDest (basepath fd) [] (outputFile fd) (outputFilename fd)
              (oldFilename fd) (snapOK fd) in
  let fd :=
    match outputFile fd with
    | Some _ => set_output None "" (snapOK fd) fd
    | None => fd
    end in
  mkFileDest "" (replayReaders fd) (outputFile fd) (outputFilename fd)
    (oldFilename fd) (snapOK fd).

Definition Write (p : list Byte.byte) (fd : fileDest) (w : World)
  : (Z * option error) * World :=
  match outputFile fd with
  | None => ((0%Z, Some ErrInvalid), w)
  | Some f => os.Write f p w
  end.

Definition ReplayReaders (fd : fileDest) : list File := replayReaders fd.

Definition rotate_before_snapshot : error :=
  Errorf "Cannot rotate: initial snapshot incomplete".
Definition double_end_rotate : error :=
  Errorf "internal error: StartRotate not called".

(** StartRotate is called by persist in order to start a new log file. *)
Definition StartRotate (fd : fileDest) (w : World)
  : (option error * fileDest) * World :=
  if negb (snapOK fd) then ((Some rotate_before_snapshot, fd), w)
  else
    let fd := mkFileDest (basepath fd) (replayReaders fd) None ""
                (outputFilename fd) (snapOK fd) in
    startNew true fd w.

Definition set_snapOK (b : bool) (fd : fileDest) : fileDest :=
  mkFileDest (basepath fd) (replayReaders fd) (outputFile fd)
    (outputFilename fd) (oldFilename fd) b.
Definition set_outputFilename (n : string) (fd : fileDest) : fileDest :=
  mkFileDest (basepath fd) (replayReaders fd) (outputFile fd) n
    (oldFilename fd) (snapOK fd).
Definition set_oldFilename (n : string) (fd : fileDest) : fileDest :=
  mkFileDest (basepath fd) (replayReaders fd) (outputFile fd)
    (outputFilename fd) n (snapOK fd).

(** EndRotate is called by persist in order to signal the completion of
    the initial snapshot on the new log file. It is called after
    StartRotate() and after NewFileDest(), i.e., there's an implicit
    StartRotate() when the destination is initially created. *)
Definition EndRotate (fd : fileDest) (w : World)
  : (option error * fileDest) * World :=
  if snapOK fd then ((Some double_end_rotate, fd), w)
  else if String.eqb (oldFilename fd) "" then
    if negb (strings.HasSuffix (outputFilename fd) currExt) then
      ((Some (Errorf ("internal error: first log file (" ++ outputFilename fd
                      ++ ") should have " ++ currExt ++ " suffix")), fd), w)
    else ((None, set_snapOK true fd), w)
  else if negb (strings.HasSuffix (outputFilename fd) newExt) then
    ((Some (Errorf ("internal error: new log file (" ++ outputFilename fd
                    ++ ") does not have " ++ newExt ++ " suffix !?")), fd), w)
  else
    (* Rename new log file *)
    let newName := strings.TrimSuffix (outputFilename fd) newExt ++ currExt in
    match os.Rename (outputFilename fd) newName w with
    | (Some err, w') => ((Some err, fd), w')
    | (None, w') =>
        let fd := set_outputFilename newName fd in
        (* Rename old file *)
        let oldName : option string :=
          if strings.HasSuffix (oldFilename fd) currExt then
            Some (strings.TrimSuffix (oldFilename fd) currExt ++ oldExt)
          else if strings.HasSuffix (oldFilename fd) newExt then
            Some (strings.TrimSuffix (oldFilename fd) newExt ++ oldExt)
          else None in
        match oldName with
        | None =>
            ((Some (Errorf ("internal error: old log file (" ++ oldFilename fd
                            ++ ") doesn't have " ++ currExt ++ " or "
                            ++ newExt ++ " suffix")), fd), w')
        | Some oldName =>
            match os.Rename (oldFilename fd) oldName w' with
            | (Some err, w'') => ((Some err, fd), w'')
            | (None, w'') =>
                ((None, set_snapOK true (set_oldFilename "" fd)), w'')
            end
        end
    end.

End FileDest.

(** ** The concatenating reader [MultiReadCloser] *)

(** [io.ReadCloser].  [rc_Read n r] is [r.Read(p)] with [len(p) = n]: the
    bytes read (their number is Go's [n]), the error, and the reader
    afterwards.  [rc_Close r] is [r.Close()]. *)
Class ReadCloser (R : Type) : Type := {
  rc_Read : nat → R → (list Byte.byte * option error) * R;
  rc_Close : R → option error * R
}.

Module MultiReadCloser.
Section multiReadCloser.
Context {R : Type} `{ReadCloser R}.

Record multiReadCloser : Type := mkMulti { readClosers : list R }.

(** The loop of [Read]: the result, the remaining list, and the
    sources closed and dropped on the way (as [Close] left them). *)
Fixpoint Read_loop (p : nat) (rs : list R)
  : ((list Byte.byte * option error) * list R) * list R :=
  match rs with
  | [] => ((([], Some EOF), []), [])
  | r :: rest =>
      let '((bs, err), r') := rc_Read p r in
      if (0 <? List.length bs)%nat || bool_decide (err ≠ Some EOF) then
        (* Don't return EOF yet. There may be more bytes in the
           remaining readers. *)
        let err := if bool_decide (err = Some EOF) then None else err in
        (((bs, err), r' :: rest), [])
      else
        let '(_, closed_r) := rc_Close r' in
        let '(res, closed) := Read_loop p rest in
        (res, closed_r :: closed)
  end.

Definition Read (p : nat) (mr : multiReadCloser)
  : ((list Byte.byte * option error) * multiReadCloser) * list R :=
  let '((res, rs), closed) := Read_loop p (readClosers mr) in
  ((res, mkMulti rs), closed).

(** The loop of [Close]: the first error met, and the sources as their
    [Close] left them. *)
Fixpoint Close_loop (err : option error) (rs : list R)
  : option error * list R :=
  match rs with
  | [] => (err, [])
  | r :: rest =>
      let '(e, r') := rc_Close r in
      let err := match err with None => e | Some _ => err end in
      let '(err, closed) := Close_loop err rest in
      (err, r' :: closed)
  end.

Definition Close (mr : multiReadCloser)
  : (option error * multiReadCloser) * list R :=
  let '(err, closed) := Close_loop None (readClosers mr) in
  ((err, mkMulti []), closed).

(** [MultiReadCloser(readers...)] *)
Definition New (readers : list R) : multiReadCloser := mkMulti readers.

End multiReadCloser.
Arguments multiReadCloser R : clear implicits.
End MultiReadCloser.

(** A reader over a byte buffer (an opened file, [bytes.Reader]): [Read]
    gives up to [len(p)] of the remaining bytes, and [0, io.EOF] at the
    end; [Close] fails the second time. *)
Record bufReader : Type := mkBuf { buf_rest : list Byte.byte; buf_closed : bool }.

#[global] Instance bufReader_ReadCloser : ReadCloser bufReader := {
  rc_Read n r :=
    match buf_rest r with
    | [] => (([], Some EOF), r)
    | _ => ((take n (buf_rest r), None), mkBuf (drop n (buf_rest r)) (buf_closed r))
    end;
  rc_Close r :=
    (if buf_closed r then Some (Errorf "file already closed") else None,
     mkBuf (buf_rest r) true)
}.

(** A reader that plays a script of [Read] results, then [0, io.EOF]. *)
Record scriptReader : Type := mkScript {
  sr_script : list (list Byte.byte * option error);
  sr_closed : bool
}.

#[global] Instance scriptReader_ReadCloser : ReadCloser scriptReader := {
  rc_Read n r :=
    match sr_script r with
    | [] => (([], Some EOF), r)
    | res :: rest => (res, mkScript rest (sr_closed r))
    end;
  rc_Close r := (None, mkScript (sr_script r) true)
}.

(** ** The log coordinator [pLog] *)

(** Go's [int] (64 bits) and [uint64], with their wrap-around. *)
Definition wrap_int (z : Z) : Z := ((z + 2 ^ 63) mod 2 ^ 64 - 2 ^ 63)%Z.
Definition wrap_uint64 (z : Z) : Z := (z mod 2 ^ 64)%Z.

(** [len(p)] *)
Definition len {A} (p : list A) : Z := Z.of_nat (List.length p).

(** The codec, package [encoding/gob], seen from the coordinator.  An
    encoder is bound to the coordinator's own sink.  [Encode] on an event
    produces messages, each handed to the sink with one [Write] in order,
    and possibly fails by itself after them (a type that was not
    registered); a failing [Write] ends it with that error.  [gob_next] is
    the encoder afterwards (the types it has described so far). *)
Class Gob (event : Type) : Type := {
  gob_encoder : Type;
  gob_NewEncoder : gob_encoder;
  gob_messages : gob_encoder → event → list (list Byte.byte) * option error;
  gob_next : gob_encoder → event → gob_encoder
}.

(** A replay reader with the decoder [gob.NewDecoder(rr)] on it is the
    sequence of results that the successive [Decode] calls give: events,
    or errors; past the end [Decode] gives [io.EOF]. *)
Definition source (event : Type) : Type := list (event + error).

Definition Decode {event} (dec : source event) : (event + error) * source event :=
  match dec with
  | [] => (inr EOF, [])
  | r :: rest => (r, rest)
  end.

(** The interface [LogDestination]. *)
Class LogDestination (event D : Type) : Type := {
  dWrite : list Byte.byte → D → (Z * option error) * D;
  dReplayReaders : D → list (source event);
  dStartRotate : D → option error * D;
  dEndRotate : D → option error * D;
  dClose : D → D
}.

(** What a client does with the log it is handed in [PersistAll]: a
    series of [Output] calls, each continued on the error returned, until
    it returns in state [c]. *)
Inductive script (event C : Type) : Type :=
| Done (c : C)
| Call_Output (ev : event) (k : option error → script event C).
Arguments Done {event C} c.
Arguments Call_Output {event C} ev k.

(** The interface [LogClient]. *)
Class LogClient (event C : Type) : Type := {
  Replay : event → C → option error * C;
  PersistAll : C → script event C
}.

Module PLog.
Section pLog.
Context {event C D S : Type}.
Context `{Gob event} `{LogClient event C}.
Context `{LogDestination event D} `{LogDestination event S}.

Record pLog : Type := mkPLog {
  client : C;                 (* client which we make callbacks *)
  size : Z;                   (* size used to decide when to rotate *)
  sizeLimit : Z;              (* size limit when to rotate *)
  sizeReplay : Z;             (* size of the initial replay *)
  objects : Z;                (* number of objects output, purely for stats *)
  encoder : option gob_encoder;
  priDest : D;                (* primary dest, where we initially replay from *)
  secDest : option S;         (* secondary dest, no replay and OK if "down" *)
  rotating : bool;            (* avoid concurrent rotations *)
  errState : option error;
  (* the package variable [pLogError], the critical lines logged, and
     the number of [go pl.finishRotate()] statements executed *)
  pLogError : bool;
  crit : list string;
  scheduled : nat
}.

Definition set_client (v : C) (pl : pLog) : pLog :=
  mkPLog v (size pl) (sizeLimit pl) (sizeReplay pl) (objects pl) (encoder pl) (priDest pl) (secDest pl) (rotating pl) (errState pl) (pLogError pl) (crit pl) (scheduled pl).
Definition set_size (v : Z) (pl : pLog) : pLog :=
  mkPLog (client pl) v (sizeLimit pl) (sizeReplay pl) (objects pl) (encoder pl) (priDest pl) (secDest pl) (rotating pl) (errState pl) (pLogError pl) (crit pl) (scheduled pl).
Definition set_sizeLimit (v : Z) (pl : pLog) : pLog :=
  mkPLog (client pl) (size pl) v (sizeReplay pl) (objects pl) (encoder pl) (priDest pl) (secDest pl) (rotating pl) (errState pl) (pLogError pl) (crit pl) (scheduled pl).
Definition set_sizeReplay (v : Z) (pl : pLog) : pLog :=
  mkPLog (client pl) (size pl) (sizeLimit pl) v (objects pl) (encoder pl) (priDest pl) (secDest pl) (rotating pl) (errState pl) (pLogError pl) (crit pl) (scheduled pl).
Definition set_objects (v : Z) (pl : pLog) : pLog :=
  mkPLog (client pl) (size pl) (sizeLimit pl) (sizeReplay pl) v (encoder pl) (priDest pl) (secDest pl) (rotating pl) (errState pl) (pLogError pl) (crit pl) (scheduled pl).
Definition set_encoder (v : option gob_encoder) (pl : pLog) : pLog :=
  mkPLog (client pl) (size pl) (sizeLimit pl) (sizeReplay pl) (objects pl) v (priDest pl) (secDest pl) (rotating pl) (errState pl) (pLogError pl) (crit pl) (scheduled pl).
Definition set_priDest (v : D) (pl : pLog) : pLog :=
  mkPLog (client pl) (size pl) (sizeLimit pl) (sizeReplay pl) (objects pl) (encoder pl) v (secDest pl) (rotating pl) (errState pl) (pLogError pl) (crit pl) (scheduled pl).
Definition set_secDest (v : option S) (pl : pLog) : pLog :=
  mkPLog (client pl) (size pl) (sizeLimit pl) (sizeReplay pl) (objects pl) (encoder pl) (priDest pl) v (rotating pl) (errState pl) (pLogError pl) (crit pl) (scheduled pl).
Definition set_rotating (v : bool) (pl : pLog) : pLog :=
  mkPLog (client pl) (size pl) (sizeLimit pl) (sizeReplay pl) (objects pl) (encoder pl) (priDest pl) (secDest pl) v (errState pl) (pLogError pl) (crit pl) (scheduled pl).
Definition set_errState (v : option error) (pl : pLog) : pLog :=
  mkPLog (client pl) (size pl) (sizeLimit pl) (sizeReplay pl) (objects pl) (encoder pl) (priDest pl) (secDest pl) (rotating pl) v (pLogError pl) (crit pl) (scheduled pl).
Definition set_pLogError (v : bool) (pl : pLog) : pLog :=
  mkPLog (client pl) (size pl) (sizeLimit pl) (sizeReplay pl) (objects pl) (encoder pl) (priDest pl) (secDest pl) (rotating pl) (errState pl) v (crit pl) (scheduled pl).
Definition set_crit (v : list string) (pl : pLog) : pLog :=
  mkPLog (client pl) (size pl) (sizeLimit pl) (sizeReplay pl) (objects pl) (encoder pl) (priDest pl) (secDest pl) (rotating pl) (errState pl) (pLogError pl) v (scheduled pl).
Definition set_scheduled (v : nat) (pl : pLog) : pLog :=
  mkPLog (client pl) (size pl) (sizeLimit pl) (sizeReplay pl) (objects pl) (encoder pl) (priDest pl) (secDest pl) (rotating pl) (errState pl) (pLogError pl) (crit pl) v.

(** SetSizeLimit sets the log size limit at which a rotation occurs *)
Definition SetSizeLimit (bytes : Z) (pl : pLog) : pLog := set_sizeLimit bytes pl.

(** HealthCheck returns nil if everything is OK and an error if the log
    is in an error state *)
Definition HealthCheck (pl : pLog) : option error := errState pl.

(** Write is called by the gob encoder and needs to write the bytes to
    all destinations *)
Definition Write (p : list Byte.byte) (pl : pLog) : (Z * option error) * pLog :=
  match errState pl with
  | Some e => ((0%Z, Some e), pl) (* in error state don't move! *)
  | None =>
      (* track size for log rotation, initial snapshot doesn't count
         towards limit *)
      let l := len p in
      let pl :=
        if negb (rotating pl) then set_size (wrap_int (size pl + len p)) pl
        else set_sizeReplay (wrap_int (sizeReplay pl + len p)) pl in
      (* write to primary destination *)
      let '((n, err), d) := dWrite p (priDest pl) in
      let pl := set_priDest d pl in
      if bool_decide (n ≠ l) || bool_decide (err ≠ None) then
        ((n, err), set_errState err pl)
      else
        (* write to secondary destination *)
        let pl :=
          match secDest pl with
          | Some s => set_secDest (Some (snd (dWrite p s))) pl
          | None => pl
          end in
        ((n, None), pl)
  end.

(** The writes of one [Encode]: stop at the first failing [Write]. *)
Fixpoint write_messages (msgs : list (list Byte.byte)) (pl : pLog)
  : option error * pLog :=
  match msgs with
  | [] => (None, pl)
  | m :: rest =>
      let '((_, err), pl) := Write m pl in
      match err with
      | Some e => (Some e, pl)
      | None => write_messages rest pl
      end
  end.

(** [pl.encoder.Encode(&t)] for the encoder [enc] of [pl]. *)
Definition Encode (enc : gob_encoder) (ev : event) (pl : pLog)
  : option error * pLog :=
  let '(msgs, gerr) := gob_messages enc ev in
  let pl := set_encoder (Some (gob_next enc ev)) pl in
  let '(werr, pl) := write_messages msgs pl in
  match werr with
  | Some e => (Some e, pl)
  | None => (gerr, pl)
  end.

(** perform a log rotation, must be called while holding the pl.Lock() *)
Definition rotate (pl : pLog) : pLog :=
  if rotating pl then pl
  else set_scheduled (Datatypes.S (scheduled pl)) (set_rotating true pl).

Definition uninitialized : error :=
  Errorf "uninitialized persistence log (nil encoder)".

(** Output a log entry *)
Definition Output (logEvent : event) (pl : pLog) : option error * pLog :=
  match errState pl with
  | Some e =>
      let pl :=
        if negb (pLogError pl) then
          set_pLogError true
            (set_crit (crit pl ++ ["Persistence log in error state: " ++ Error e]) pl)
        else pl in
      (Some e, pl)
  | None =>
      let pl := set_pLogError false pl in
      match encoder pl with
      | None => (Some uninitialized, pl)
      | Some enc =>
          let pl := set_objects (wrap_uint64 (objects pl + 1)) pl in
          let '(err, pl) := Encode enc logEvent pl in
          match err with
          | Some e => (Some e, set_errState (Some e) pl)
          | None =>
              if negb (rotating pl) && (size pl >? sizeLimit pl)%Z
              then (None, rotate pl)
              else (None, pl)
          end
      end
  end.

Definition SetSecondaryDestination (dest : S) (pl : pLog) : option error * pLog :=
  (Some (Errorf "not implemented yet!"), pl).

(** The run of the client's [PersistAll(pl)] against the log. *)
Fixpoint run_PersistAll (s : script event C) (pl : pLog) : pLog :=
  match s with
  | Done c => set_client c pl
  | Call_Output ev k =>
      let '(err, pl) := Output ev pl in
      run_PersistAll (k err) pl
  end.

Definition secStartRotate (pl : pLog) : pLog :=
  match secDest pl with
  | Some s => set_secDest (Some (snd (dStartRotate s))) pl
  | None => pl
  end.
Definition secEndRotate (pl : pLog) : pLog :=
  match secDest pl with
  | Some s => set_secDest (Some (snd (dEndRotate s))) pl
  | None => pl
  end.

(** [finishRotate], first critical section: from [pl.Lock()] to the
    [pl.Unlock()] before [PersistAll], or to the early return.  The
    boolean tells whether the task goes on. *)
Definition finishRotate_begin (pl : pLog) : bool * pLog :=
  (* tell all log destinations to start a rotation *)
  let pl := set_sizeReplay 0 (set_size 0 pl) in
  let '(err, d) := dStartRotate (priDest pl) in
  let pl := secStartRotate (set_priDest d pl) in
  match err with
  | Some e => (false, set_errState (Some e) pl)
  | None =>
      (* we need a new encoder 'cause we start a fresh stream *)
      (true, set_encoder (Some gob_NewEncoder) pl)
  end.

(** [finishRotate], second critical section: from the [pl.Lock()] after
    [PersistAll] to the end. *)
Definition finishRotate_end (pl : pLog) : pLog :=
  (* tell all log destinations that we're done with the rotation *)
  let '(err, d) := dEndRotate (priDest pl) in
  let pl := secEndRotate (set_priDest d pl) in
  let pl := set_rotating false pl in
  match err with
  | Some e =>
      set_errState (Some e)
        (set_crit (crit pl ++ ["Finished rotation with error"]) pl)
  | None => pl
  end.

(** [finishRotate] when no other goroutine takes the lock while the
    client's [PersistAll] runs. *)
Definition finishRotate (pl : pLog) : pLog :=
  let '(go_on, pl) := finishRotate_begin pl in
  if go_on then finishRotate_end (run_PersistAll (PersistAll (client pl)) pl)
  else pl.

Definition decode_failed (log_num count : nat) (err : error) : error :=
  Errorf ("replay decode failed in log " ++ itoa log_num ++ " after "
          ++ itoa count ++ " entries: " ++ Error err).
Definition replay_failed (count : nat) (err : error) : error :=
  Errorf ("replay failed on entry " ++ itoa count ++ ": " ++ Error err).

(** The inner loop of [replay] on the decoder of log [i] (from 0),
    [count] entries in. *)
Fixpoint replay_log (i count : nat) (dec : source event) (c : C)
  : option error * C :=
  match dec with
  | [] => (None, c) (* io.EOF: done replaying *)
  | inr err :: rest =>
      if bool_decide (err = EOF) then (None, c)
      else (Some (decode_failed (i + 1) count err), c)
  | inl ev :: rest =>
      let count := (count + 1)%nat in
      let '(err, c) := Replay ev c in
      match err with
      | Some e => (Some (replay_failed count e), c)
      | None => replay_log i count rest c
      end
  end.

(** The outer loop of [replay], over the replay readers from index [i];
    the third component lists the readers closed. *)
Fixpoint replay_from (i : nat) (rrs : list (source event)) (c : C)
  : (option error * C) * list nat :=
  match rrs with
  | [] => ((None, c), [])
  | rr :: rest =>
      let '(err, c) := replay_log i 0 rr c in
      match err with
      | Some e => ((Some e, c), [])
      | None =>
          let '(res, closed) := replay_from (Datatypes.S i) rest c in
          (res, i :: closed)
      end
  end.

(** replay a log file *)
Definition replay (pl : pLog) : option error * pLog :=
  let '((err, c), _) := replay_from 0 (dReplayReaders (priDest pl)) (client pl) in
  (err, set_client c pl).

(** NewLog reopens an existing log, replays all log entries, and then
    prepares to append to it.  The result is the pair returned ([None]
    for the nil [Log]) and the coordinator object as the call left it. *)
Definition NewLog (priDest' : D) (client' : C)
  : (option pLog * option error) * pLog :=
  let pl := mkPLog client' 0 (1024 * 1024) 0 0 None priDest' None false None
              false [] 0 in
  let pl := set_encoder (Some gob_NewEncoder) pl in
  let '(err, pl) := replay pl in
  match err with
  | Some e =>
      let pl := set_errState (Some e) pl in
      ((None, Some e), pl)
  | None =>
      (* now create a full snapshot *)
      let pl := set_rotating true pl in
      let pl := run_PersistAll (PersistAll (client pl)) pl in
      let pl := set_rotating false pl in
      (* tell all log destinations that we're done with the rotation *)
      let '(err, d) := dEndRotate (priDest pl) in
      let pl := secEndRotate (set_priDest d pl) in
      match err with
      | Some e =>
          let pl := set_errState (Some e) pl in
          ((None, Some e), pl)
      | None => ((Some pl, None), pl)
      end
  end.

End pLog.
Arguments pLog {event} C D S {_}.
End PLog.

(** ** Destinations and clients *)

#[global] Instance byte_eq_dec : EqDecision Byte.byte := Byte.byte_eq_dec.

(** The do-nothing destination. *)
Record noopDest : Type := mkNoop { }.

#[global] Instance noopDest_LogDestination {event} : LogDestination event noopDest := {
  dWrite p nd := ((len p, None), nd);
  dReplayReaders nd := [];
  dStartRotate nd := (None, nd);
  dEndRotate nd := (None, nd);
  dClose nd := nd
}.

(** The file destination together with the operating system it lives in.
    [decode] gives the results of the successive [Decode] calls on a
    stream of these bytes. *)
Definition fileDest_LogDestination {event} (decode : list Byte.byte → source event)
  : LogDestination event (FileDest.fileDest * World) := {|
  dWrite p '(fd, w) := let '(res, w) := FileDest.Write p fd w in (res, (fd, w));
  dReplayReaders '(fd, w) :=
    map (fun f => decode (default [] (data w !! f_ino f))) (FileDest.ReplayReaders fd);
  dStartRotate '(fd, w) :=
    let '((err, fd), w) := FileDest.StartRotate fd w in (err, (fd, w));
  dEndRotate '(fd, w) :=
    let '((err, fd), w) := FileDest.EndRotate fd w in (err, (fd, w));
  dClose '(fd, w) := (FileDest.Close fd, w)
|}.

(** A codec of one byte per event, for examples: the first [Encode] of an
    encoder sends a header message; the event [xff] cannot be encoded; on
    replay the header is skipped and the byte [xfe] is corrupt. *)
#[global] Instance byteGob : Gob Byte.byte := {
  gob_encoder := bool;
  gob_NewEncoder := false;
  gob_messages enc ev :=
    let header := if enc then [] else [[x80]] in
    if bool_decide (ev = xff)
    then (header, Some (Errorf "gob: type not registered for interface"))
    else ((header ++ [[ev]])%list, None);
  gob_next enc ev := true
}.

Definition byteDecode (bs : list Byte.byte) : source Byte.byte :=
  map (fun b => if bool_decide (b = xfe)
                then inr (Errorf "gob: encoded unsigned integer out of range")
                else inl b)
      (filter (fun b => b ≠ x80) bs).

(** A client in the manner of the test suite: it keeps the events replayed
    to it, refuses the event [x00], and persists what it holds. *)
Record testClient : Type := mkClient { held : list Byte.byte }.

Fixpoint output_all {C} (evs : list Byte.byte) (c : C) : script Byte.byte C :=
  match evs with
  | [] => Done c
  | ev :: rest => Call_Output ev (fun _ => output_all rest c)
  end.

#[global] Instance testClient_LogClient : LogClient Byte.byte testClient := {
  Replay ev c :=
    if bool_decide (ev = x00) then (Some (Errorf "invalid replay record type"), c)
    else (None, mkClient (held c ++ [ev])%list);
  PersistAll c := output_all (held c) c
}.

(** ** Definitions used to state the properties *)

(** Exclusive creation of [n], as [createNewFile] reports it. *)
Definition create_exclusive (n : string) (w : World)
  : (File * string + error) * World :=
  match os.OpenFile_excl n w with
  | (inl fd, w') => (inl (fd, n), w')
  | (inr err, w') => (inr err, w')
  end.


(** Example data: a clock, the empty directory, a directory holding one
    current segment, and one where every stem of the second is taken. *)
Definition clock0 : utc := mkUtc 2015 3 7 9 5 1.
Definition world0 : World := mkWorld ∅ ∅ ∅ clock0.

Definition stem0 : string := "/tmp/t/nf-20150307-090501".

Definition world_curr : World :=
  mkWorld {[ stem0 ++ "-curr.plog" := 0%nat ]} {[ 0%nat := [x80; x01; x02] ]} ∅ clock0.

Definition world_full : World :=
  mkWorld
    (list_to_map
       (map (fun i => (stem0 ++ String (ascii_of_nat i) "" ++ "-old.plog", i))
            (seq 97 26)))
    ∅ ∅ clock0.

(** The shapes of a sorted segment enumeration, in the specification's
    words: empty; last entry current; last entry new with a current entry
    just before it; anything else. *)
Inductive shape : Type :=
| Virgin
| Current (c : string)
| CurrentNew (c n : string)
| Ambiguous.

Definition classify (m : list string) : shape :=
  match rev m with
  | [] => Virgin
  | l :: before =>
      if strings.HasSuffix l FileDest.currExt then Current l
      else
        match before with
        | p :: _ =>
            if strings.HasSuffix l FileDest.newExt
               && strings.HasSuffix p FileDest.currExt
            then CurrentNew p l else Ambiguous
        | [] => Ambiguous
        end
  end.

(** The sorted enumeration of the segments of a basepath. *)
Definition segments (basepath : string) (w : World) : list string :=
  sort.Strings (filepath.Glob basepath ".plog" w).

(** A directory with a current segment followed by a new one, and one with
    a lone new segment. *)
Definition world_curr_new : World :=
  mkWorld {[ stem0 ++ "-curr.plog" := 0%nat; stem0 ++ "a-new.plog" := 1%nat ]}
          {[ 0%nat := [x80; x01; x02]; 1%nat := [x80; x03] ]} ∅ clock0.

Definition world_lone_new : World :=
  mkWorld {[ stem0 ++ "-new.plog" := 0%nat ]} {[ 0%nat := [x80; x01] ]} ∅ clock0.

(** The first stem that is not taken, in the order in which
    [createNewFile] tries them (rune 96 for the bare stem, then ['a'] to
    ['z']). *)
Definition first_free (name : string) (w : World) : option nat :=
  snd <$> list_find (fun j => FileDest.taken (FileDest.stem name j) w = false)
            (seq 96 27).

(** Opening the files [cs] for reading, in order, up to the first that
    does not open. *)
Fixpoint open_all (cs : list string) (w : World) : list File + error :=
  match cs with
  | [] => inl []
  | c :: rest =>
      match os.Open c w with
      | inr err => inr (FileDest.error_opening c err)
      | inl f =>
          match open_all rest w with
          | inl fs => inl (f :: fs)
          | inr e => inr e
          end
      end
  end.

(** What the specification says of an opening that is to replay the files
    [cs], with [old] as the previous segment, in terms of the operating
    system alone.  The files are opened for reading, older first; the
    output segment is created exclusively under the first free stem, with
    the extension [-new.plog].  The destination returned holds exactly the
    descriptors opened on [cs] as its replay readers.  The opening fails,
    creating nothing, when a file does not open, when no stem is free, or
    when the OS refuses the creation. *)
Definition opens_replaying (basepath : string) (cs : list string) (old : string)
    (w : World) : (FileDest.fileDest + error) * World :=
  match open_all cs w with
  | inr e => (inr e, w)
  | inl fs =>
      let name := basepath ++ FileDest.Format_dateFmt (now w) in
      match first_free name w with
      | None =>
          (inr (Errorf "Cannot create new log file: Too many log files in the same second"),
           w)
      | Some j =>
          let n := FileDest.stem name j ++ FileDest.newExt in
          match os.OpenFile_excl n w with
          | (inr err, _) =>
              (inr (Errorf ("Cannot create new log file: " ++ Error err)), w)
          | (inl f, w') =>
              (inl (FileDest.mkFileDest basepath fs (Some f) n old false), w')
          end
      end
  end.

(** The calls a coordinator makes on an open file destination, and the
    passing of time; a run records each call with the error it returned. *)
Inductive fd_op : Type :=
| OpStartRotate
| OpEndRotate
| OpWrite (p : list Byte.byte)
| OpClose
| OpTick (t : utc).

Definition fd_step (op : fd_op) (st : FileDest.fileDest * World)
  : option error * (FileDest.fileDest * World) :=
  let '(fd, w) := st in
  match op with
  | OpStartRotate =>
      let '((err, fd), w) := FileDest.StartRotate fd w in (err, (fd, w))
  | OpEndRotate =>
      let '((err, fd), w) := FileDest.EndRotate fd w in (err, (fd, w))
  | OpWrite p =>
      let '((_, err), w) := FileDest.Write p fd w in (err, (fd, w))
  | OpClose => (None, (FileDest.Close fd, w))
  | OpTick t => (None, (fd, mkWorld (names w) (data w) (faults w) t))
  end.

Fixpoint fd_run (ops : list fd_op) (st : FileDest.fileDest * World)
  : list (fd_op * option error) * (FileDest.fileDest * World) :=
  match ops with
  | [] => ([], st)
  | op :: rest =>
      let '(err, st) := fd_step op st in
      let '(trace, st) := fd_run rest st in
      ((op, err) :: trace, st)
  end.

(** Whether a run that starts with the flag [b] ends between a successful
    [EndRotate] and the next successful [StartRotate]. *)
Fixpoint after_EndRotate (b : bool) (trace : list (fd_op * option error)) : bool :=
  match trace with
  | [] => b
  | (OpEndRotate, None) :: rest => after_EndRotate true rest
  | (OpStartRotate, None) :: rest => after_EndRotate false rest
  | _ :: rest => after_EndRotate b rest
  end.

(** Example runs: a destination opened on the empty directory, after its
    first [EndRotate], and after the [StartRotate] that follows. *)
Definition no_dest : FileDest.fileDest := FileDest.mkFileDest "" [] None "" "" false.

Definition opened (res : (FileDest.fileDest + error) * World)
  : FileDest.fileDest * World :=
  match res with
  | (inl fd, w) => (fd, w)
  | (inr _, w) => (no_dest, w)
  end.

Definition rotated (res : (option error * FileDest.fileDest) * World)
  : FileDest.fileDest * World := (snd (fst res), snd res).

Definition dest0 := opened (FileDest.NewFileDest "/tmp/t/nf" true world0).
Definition dest1 := rotated (FileDest.EndRotate (fst dest0) (snd dest0)).
Definition dest2 := rotated (FileDest.StartRotate (fst dest1) (snd dest1)).

(** A destination reopened on a current segment followed by a new one
    (an interrupted snapshot), and the worlds after the two renames of its
    [EndRotate]. *)
Definition dest3 := opened (FileDest.NewFileDest "/tmp/t/nf" false world_curr_new).
Definition world3a : World :=
  snd (os.Rename (stem0 ++ "b-new.plog") (stem0 ++ "b-curr.plog") (snd dest3)).
Definition world3b : World :=
  snd (os.Rename (stem0 ++ "a-new.plog") (stem0 ++ "a-old.plog") world3a).

(** Reading a concatenating reader to its end, with buffers of [p] bytes:
    the bytes delivered and the error that ended the reading ([fuel]
    bounds the number of [Read] calls). *)
Fixpoint read_all {R} `{ReadCloser R} (fuel p : nat)
    (mr : MultiReadCloser.multiReadCloser R) : list Byte.byte * option error :=
  match fuel with
  | O => ([], None)
  | Datatypes.S fuel =>
      let '(((bs, err), mr), _) := MultiReadCloser.Read p mr in
      match err with
      | Some e => (bs, Some e)
      | None => let '(rest, e) := read_all fuel p mr in ((bs ++ rest)%list, e)
      end
  end.

(** The first error among the results of a series of [Close] calls. *)
Fixpoint first_error (errs : list (option error)) : option error :=
  match errs with
  | [] => None
  | Some e :: _ => Some e
  | None :: rest => first_error rest
  end.

(** Example readers: two buffers, and a source that fails. *)
Definition hello : list Byte.byte := [x48; x65; x6c; x6c; x6f].
Definition again : list Byte.byte := [x41; x67; x61; x69; x6e].
Definition failing_reader : scriptReader :=
  mkScript [([x01], None); ([], Some (Errorf "read error"))] false.

(** The bytes that a list of buffer readers still holds, in order. *)
Definition remaining (rs : list bufReader) : list Byte.byte :=
  concat (map buf_rest rs).

(** *** Runs of the coordinator *)

Section coordinator_runs.
Context {event C D S : Type}.
Context `{Gob event} `{LogClient event C}.
Context `{LogDestination event D} `{LogDestination event S}.

Abbreviation pLog := (PLog.pLog C D S).

(** What the sink and the encoder leave alone: the rotation flag, the
    limit, the rotations scheduled, the client, the critical log and its
    latch; the post-snapshot counter while a rotation is in progress; and
    an error state once it is set. *)
Definition frame (pl pl' : pLog) : Prop :=
  PLog.rotating pl' = PLog.rotating pl
  ∧ PLog.sizeLimit pl' = PLog.sizeLimit pl
  ∧ PLog.scheduled pl' = PLog.scheduled pl
  ∧ PLog.client pl' = PLog.client pl
  ∧ PLog.crit pl' = PLog.crit pl
  ∧ PLog.pLogError pl' = PLog.pLogError pl
  ∧ (PLog.rotating pl = true → PLog.size pl' = PLog.size pl)
  ∧ (PLog.errState pl ≠ None → PLog.errState pl' = PLog.errState pl).

(** What happens to a coordinator, one critical section at a time: an
    [Output] by any goroutine, a [Write] on the sink, [SetSizeLimit], the
    two critical sections of the rotation task, a whole [PersistAll] of
    the client, and a whole rotation. *)
Inductive pl_op : Type :=
| PlOutput (ev : event)
| PlWrite (p : list Byte.byte)
| PlSetSizeLimit (bytes : Z)
| PlRotateBegin
| PlRotateEnd
| PlPersistAll
| PlFinishRotate.

Definition pl_step (pl : pLog) (op : pl_op) : pLog :=
  match op with
  | PlOutput ev => snd (PLog.Output ev pl)
  | PlWrite p => snd (PLog.Write p pl)
  | PlSetSizeLimit bytes => PLog.SetSizeLimit bytes pl
  | PlRotateBegin => snd (PLog.finishRotate_begin pl)
  | PlRotateEnd => PLog.finishRotate_end pl
  | PlPersistAll => PLog.run_PersistAll (PersistAll (PLog.client pl)) pl
  | PlFinishRotate => PLog.finishRotate pl
  end.

Definition pl_run (ops : list pl_op) (pl : pLog) : pLog := fold_left pl_step ops pl.

(** The bytes of a series of messages. *)
Definition total_len (msgs : list (list Byte.byte)) : Z :=
  fold_right (fun m n => (len m + n)%Z) 0%Z msgs.

(** The counter that [Write] credits, and the other one. *)
Definition credited (pl : pLog) : Z :=
  if PLog.rotating pl then PLog.sizeReplay pl else PLog.size pl.
Definition uncredited (pl : pLog) : Z :=
  if PLog.rotating pl then PLog.size pl else PLog.sizeReplay pl.

(** The client after it has accepted the events [evs] one after the
    other; [None] if it refuses one of them. *)
Fixpoint replayed (evs : list event) (c : C) : option C :=
  match evs with
  | [] => Some c
  | ev :: rest =>
      match Replay ev c with
      | (None, c') => replayed rest c'
      | (Some _, _) => None
      end
  end.

(** A replay reader that decodes to the events [evs] and then ends. *)
Definition clean (evs : list event) : source event := map inl evs.

End coordinator_runs.

(** *** Example coordinators *)

#[global] Instance byteFileDest : LogDestination Byte.byte (FileDest.fileDest * World) :=
  fileDest_LogDestination byteDecode.

(** Over the do-nothing destination: as [NewLog] returns it; with the
    limit set to zero; after a first [Output], which schedules a
    rotation; and after an [Output] that the codec refuses. *)
Definition log0 : PLog.pLog testClient noopDest noopDest :=
  snd (PLog.NewLog mkNoop (mkClient [x01; x02])).
Definition log_small : PLog.pLog testClient noopDest noopDest :=
  PLog.SetSizeLimit 0 log0.
Definition log_rotating : PLog.pLog testClient noopDest noopDest :=
  snd (PLog.Output x03 log_small).
Definition log_error : PLog.pLog testClient noopDest noopDest :=
  snd (PLog.Output xff log_rotating).

(** A current segment whose second event the client refuses, and the
    destination opened on it. *)
Definition world_refused : World :=
  mkWorld {[ stem0 ++ "-curr.plog" := 0%nat ]} {[ 0%nat := [x80; x01; x00; x02] ]} ∅ clock0.
Definition dest_refused : FileDest.fileDest * World :=
  opened (FileDest.NewFileDest "/tmp/t/nf" false world_refused).

(** A coordinator about to rotate over a file destination on a full disk:
    the next segment cannot be created. *)
Definition next_segment : string := stem0 ++ "a-new.plog".
Definition dest_full_disk : FileDest.fileDest * World :=
  (fst dest1,
   mkWorld (names (snd dest1)) (data (snd dest1)) {[ next_segment := ENOSPC ]} clock0).
Definition log_full_disk : PLog.pLog testClient (FileDest.fileDest * World) noopDest :=
  PLog.mkPLog (mkClient [x01]) 5 4 0 1 (Some true) dest_full_disk None true None
    false [] 1.

(** A current segment that ends in a corrupt entry, and the destination
    opened on it. *)
Definition world_corrupt : World :=
  mkWorld {[ stem0 ++ "-curr.plog" := 0%nat ]} {[ 0%nat := [x80; x01; x02; xfe] ]} ∅ clock0.
Definition dest_corrupt : FileDest.fileDest * World :=
  opened (FileDest.NewFileDest "/tmp/t/nf" false world_corrupt).

(** * Properties *)

(** ** Strings *)

Section string_facts.

Lemma String_app (c : ascii) (s t : string) :
  String c s ++ t = String c (s ++ t).
Proof. reflexivity. Qed.

Lemma string_length_app (s t : string) :
  String.length (s ++ t) = (String.length s + String.length t)%nat.
Proof. induction s as [|c s IH]; simpl; [reflexivity | now rewrite IH]. Qed.

Lemma substring_0_all (s : string) : substring 0 (String.length s) s = s.
Proof. induction s as [|c s IH]; simpl; [reflexivity | now rewrite IH]. Qed.

Lemma substring_app_skip (s t : string) (m : nat) :
  substring (String.length s) m (s ++ t) = substring 0 m t.
Proof. induction s as [|c s IH]; simpl; [reflexivity | exact IH]. Qed.

Lemma substring_0_app (s t : string) :
  substring 0 (String.length s) (s ++ t) = s.
Proof.
  induction s as [|c s IH]; simpl.
  - now destruct t.
  - now rewrite IH.
Qed.

Lemma substring_split (s : string) (k : nat) :
  (k <= String.length s)%nat →
  s = substring 0 k s ++ substring k (String.length s - k) s.
Proof.
  revert k. induction s as [|c s IH]; intros k Hk; simpl in *.
  - assert (k = 0%nat) by lia. subst. reflexivity.
  - destruct k as [|k]; simpl.
    + now rewrite substring_0_all.
    + rewrite String_app. f_equal. apply IH. lia.
Qed.

Lemma prefix_app (s t : string) : String.prefix s (s ++ t) = true.
Proof.
  induction s as [|c s IH]; simpl.
  - now destruct t.
  - destruct (ascii_dec c c); [exact IH | congruence].
Qed.

Lemma HasSuffix_app (s suf : string) : strings.HasSuffix (s ++ suf) suf = true.
Proof.
  unfold strings.HasSuffix. rewrite string_length_app.
  apply andb_true_iff. split.
  - apply Nat.leb_le. lia.
  - replace (String.length s + String.length suf - String.length suf)%nat
      with (String.length s) by lia.
    rewrite substring_app_skip, substring_0_all. apply String.eqb_refl.
Qed.

Lemma HasSuffix_split (s suf : string) :
  strings.HasSuffix s suf = true → s = strings.TrimSuffix s suf ++ suf.
Proof.
  intros Hs. unfold strings.TrimSuffix. rewrite Hs.
  unfold strings.HasSuffix in Hs. apply andb_true_iff in Hs as [Hle Heq].
  apply Nat.leb_le in Hle. apply String.eqb_eq in Heq.
  rewrite (substring_split s (String.length s - String.length suf)) at 1 by lia.
  f_equal. rewrite <- Heq at 3. f_equal. lia.
Qed.

Lemma TrimSuffix_app (s suf : string) : strings.TrimSuffix (s ++ suf) suf = s.
Proof.
  unfold strings.TrimSuffix. rewrite HasSuffix_app, string_length_app.
  replace (String.length s + String.length suf - String.length suf)%nat
    with (String.length s) by lia.
  apply substring_0_app.
Qed.

Lemma list_ascii_app (s t : string) :
  list_ascii_of_string (s ++ t)
  = (list_ascii_of_string s ++ list_ascii_of_string t)%list.
Proof. induction s as [|c s IH]; simpl; [reflexivity | now rewrite IH]. Qed.

(** Two names with the same text end alike: their reversed suffixes
    agree as far as both go. *)
Lemma suffixes_agree (p q a b : string) :
  p ++ a = q ++ b →
  (rev (list_ascii_of_string a) ++ rev (list_ascii_of_string p))%list
  = (rev (list_ascii_of_string b) ++ rev (list_ascii_of_string q))%list.
Proof.
  intros E. apply (f_equal list_ascii_of_string) in E.
  rewrite !list_ascii_app in E. apply (f_equal (@rev ascii)) in E.
  now rewrite !rev_app_distr in E.
Qed.

Lemma suffix_clash (s a b : string) :
  strings.HasSuffix s a = true → strings.HasSuffix s b = true →
  ∃ p q, p ++ a = q ++ b.
Proof.
  intros Ha Hb. exists (strings.TrimSuffix s a), (strings.TrimSuffix s b).
  now rewrite <- (HasSuffix_split s a Ha), <- (HasSuffix_split s b Hb).
Qed.

Ltac ext_clash H1 H2 :=
  destruct (suffix_clash _ _ _ H1 H2) as (p & q & E);
  apply suffixes_agree in E; simpl in E; discriminate E.

Lemma new_not_curr (s : string) :
  strings.HasSuffix s FileDest.newExt = true →
  strings.HasSuffix s FileDest.currExt = false.
Proof.
  intros H1. destruct (strings.HasSuffix s FileDest.currExt) eqn:H2; [|reflexivity].
  ext_clash H1 H2.
Qed.

Lemma curr_not_new (s : string) :
  strings.HasSuffix s FileDest.currExt = true →
  strings.HasSuffix s FileDest.newExt = false.
Proof.
  intros H1. destruct (strings.HasSuffix s FileDest.newExt) eqn:H2; [|reflexivity].
  ext_clash H1 H2.
Qed.

Lemma old_not_curr (s : string) :
  strings.HasSuffix s FileDest.oldExt = true →
  strings.HasSuffix s FileDest.currExt = false.
Proof.
  intros H1. destruct (strings.HasSuffix s FileDest.currExt) eqn:H2; [|reflexivity].
  ext_clash H1 H2.
Qed.

Lemma HasSuffix_nonempty (s suf : string) :
  suf ≠ "" → strings.HasSuffix s suf = true → s ≠ "".
Proof.
  intros Hne Hs ->. unfold strings.HasSuffix in Hs. simpl in Hs.
  destruct suf; [congruence | discriminate].
Qed.

End string_facts.

(** ** The directory enumeration *)

#[global] Instance String_le_total : Total String_le.
Proof. intros s1 s2. apply String.leb_total. Qed.

Lemma elem_of_Glob (pre suf : string) (w : World) (x : string) :
  x ∈ filepath.Glob pre suf w ↔ x ∈ paths w ∧ filepath.star_match pre suf x = true.
Proof.
  unfold filepath.Glob, sort.Strings. rewrite merge_sort_Permutation.
  rewrite list_elem_of_filter, elem_of_elements. tauto.
Qed.

Lemma Glob_sorted (pre suf : string) (w : World) :
  Sorted String_le (filepath.Glob pre suf w).
Proof. apply (Sorted_merge_sort String_le). Qed.

Lemma sort_Strings_sorted (l : list string) : Sorted String_le (sort.Strings l).
Proof. apply (Sorted_merge_sort String_le). Qed.

Lemma sort_Strings_perm (l : list string) : sort.Strings l ≡ₚ l.
Proof. apply merge_sort_Permutation. Qed.

Lemma HasSuffix_empty (s : string) : strings.HasSuffix s "" = true.
Proof.
  unfold strings.HasSuffix. simpl. rewrite Nat.sub_0_r.
  replace (substring (String.length s) 0 s) with "".
  - reflexivity.
  - induction s as [|c s IH]; [reflexivity | exact IH].
Qed.

Lemma star_match_prefix (n ext : string) :
  strings.ContainsAny ext "/" = false →
  filepath.star_match n "" (n ++ ext) = true.
Proof.
  intros Hext. unfold filepath.star_match.
  rewrite string_length_app, prefix_app, HasSuffix_empty. simpl String.length.
  replace (String.length n + String.length ext - String.length n - 0)%nat
    with (String.length ext) by lia.
  rewrite substring_app_skip, substring_0_all, Hext. simpl.
  rewrite !andb_true_r. apply Nat.leb_le. lia.
Qed.

Lemma not_taken_absent (n ext : string) (w : World) :
  strings.ContainsAny ext "/" = false →
  FileDest.taken n w = false → names w !! (n ++ ext) = None.
Proof.
  intros Hext Hfree. unfold FileDest.taken in Hfree.
  apply negb_false_iff, bool_decide_eq_true in Hfree.
  destruct (names w !! (n ++ ext)) as [i|] eqn:E; [|reflexivity].
  assert (Hin : n ++ ext ∈ filepath.Glob n "" w).
  { apply elem_of_Glob. split; [|now apply star_match_prefix].
    unfold paths. apply elem_of_dom. eauto. }
  rewrite Hfree in Hin. inversion Hin.
Qed.

(** ** Creating a segment file (C8) *)

Lemma OpenFile_excl_not_ErrExist (n : string) (w w' : World) (err : error) :
  os.OpenFile_excl n w = (inr err, w') → err ≠ ErrExist.
Proof.
  unfold os.OpenFile_excl.
  destruct (faults w !! n); [intros [= <- _]; discriminate|].
  destruct (names w !! n); intros [=]; subst; discriminate.
Qed.

Lemma createNewFile_from_all_taken (k i : nat) (name ext : string) (w : World) :
  (∀ j, (i <= j < i + k)%nat → FileDest.taken (FileDest.stem name j) w = true) →
  FileDest.createNewFile_from k i name ext w
  = (inr (Errorf "Too many log files in the same second"), w).
Proof.
  revert i. induction k as [|k IH]; intros i Hall; simpl; [reflexivity|].
  rewrite (Hall i) by lia. apply IH. intros j Hj. apply Hall. lia.
Qed.

Lemma createNewFile_from_first_free (k i j : nat) (name ext : string) (w : World) :
  (i <= j < i + k)%nat →
  (∀ j', (i <= j' < j)%nat → FileDest.taken (FileDest.stem name j') w = true) →
  FileDest.taken (FileDest.stem name j) w = false →
  FileDest.createNewFile_from k i name ext w
  = create_exclusive (FileDest.stem name j ++ ext) w.
Proof.
  revert i. induction k as [|k IH]; intros i Hj Hbelow Hfree; [lia|].
  simpl. destruct (decide (i = j)) as [->|Hne].
  - rewrite Hfree. unfold create_exclusive.
    destruct (os.OpenFile_excl _ w) as [[fd|err] w'] eqn:E; [reflexivity|].
    apply OpenFile_excl_not_ErrExist in E.
    now rewrite bool_decide_eq_true_2.
  - rewrite (Hbelow i) by lia. apply IH; [lia| |exact Hfree].
    intros j' Hj'. apply Hbelow. lia.
Qed.

(** C8.  [createNewFile] tries the undecorated stem and then the stems
    with one letter from ['a'] to ['z'] (runes 96 to 122, 96 standing for
    "no letter").  A stem is taken when an existing file begins with it.
    When all 27 stems are taken the call fails with "Too many log files in
    the same second" and the directory is as before.  Otherwise, with [i]
    the first stem not taken, the call is the exclusive creation of that
    stem plus the extension: the name is not in the directory before, and
    where the OS lets the creation through the file is returned under
    that name and the directory gains exactly that entry. *)
Theorem createNewFile_first_free_or_too_many (name ext : string) (w : World) :
  ((∀ i, (96 <= i <= 122)%nat → FileDest.taken (FileDest.stem name i) w = true) →
   FileDest.createNewFile name ext w
   = (inr (Errorf "Too many log files in the same second"), w))
  ∧
  (∀ i, (96 <= i <= 122)%nat →
     (∀ j, (96 <= j < i)%nat → FileDest.taken (FileDest.stem name j) w = true) →
     FileDest.taken (FileDest.stem name i) w = false →
     strings.ContainsAny ext "/" = false →
     let n := FileDest.stem name i ++ ext in
     FileDest.createNewFile name ext w = create_exclusive n w
     ∧ (n ∉ paths w)
     ∧ (faults w !! n = None →
        ∃ fd w', FileDest.createNewFile name ext w = (inl (fd, n), w')
                 ∧ f_name fd = n
                 ∧ paths w' = {[ n ]} ∪ paths w)).
Proof.
  split.
  - intros Hall. apply createNewFile_from_all_taken. intros j Hj. apply Hall. lia.
  - intros i Hi Hbelow Hfree Hext n.
    assert (Hcreate : FileDest.createNewFile name ext w = create_exclusive n w).
    { apply createNewFile_from_first_free; [lia|exact Hbelow|exact Hfree]. }
    pose proof (not_taken_absent _ ext w Hext Hfree) as Habs. fold n in Habs.
    split; [exact Hcreate|]. split.
    + unfold paths. rewrite elem_of_dom, Habs. intros [? [=]].
    + intros Hok. rewrite Hcreate. unfold create_exclusive, os.OpenFile_excl.
      rewrite Hok, Habs. eexists _, _. split; [reflexivity|]. split; [reflexivity|].
      unfold paths, set_data, set_names. simpl. apply dom_insert_L.
Qed.

Lemma createNewFile_first_free_or_too_many_witness :
  FileDest.createNewFile stem0 FileDest.newExt world_full
  = (inr (Errorf "Too many log files in the same second"), world_full)
  ∧ (let n := FileDest.stem stem0 97 ++ FileDest.newExt in
     FileDest.createNewFile stem0 FileDest.newExt world_curr
     = create_exclusive n world_curr
     ∧ (n ∉ paths world_curr)
     ∧ (faults world_curr !! n = None →
        ∃ fd w', FileDest.createNewFile stem0 FileDest.newExt world_curr
                 = (inl (fd, n), w')
                 ∧ f_name fd = n
                 ∧ paths w' = {[ n ]} ∪ paths world_curr)).
Proof.
  split.
  - apply (proj1 (createNewFile_first_free_or_too_many stem0 FileDest.newExt world_full)).
    intros i Hi.
    assert (HF : forallb (fun i => FileDest.taken (FileDest.stem stem0 i) world_full)
                   (seq 96 27) = true) by (vm_compute; reflexivity).
    rewrite forallb_forall in HF. apply HF. apply in_seq. lia.
  - apply (proj2 (createNewFile_first_free_or_too_many stem0 FileDest.newExt world_curr) 97%nat).
    + lia.
    + intros j Hj. assert (j = 96%nat) as -> by lia. vm_compute. reflexivity.
    + vm_compute. reflexivity.
    + reflexivity.
Defined.

(** ** Opening a destination (C2) *)

Lemma classify_Virgin (m : list string) : classify m = Virgin ↔ m = [].
Proof.
  unfold classify. split.
  - destruct (rev m) as [|l before] eqn:E.
    + intros _. apply (f_equal (@rev string)) in E. now rewrite rev_involutive in E.
    + destruct (strings.HasSuffix l _); [discriminate|].
      destruct before; [discriminate|]. now destruct (_ && _).
  - now intros ->.
Qed.

Lemma classify_Current (m : list string) (c : string) :
  classify m = Current c
  ↔ ∃ pre, m = (pre ++ [c])%list ∧ strings.HasSuffix c FileDest.currExt = true.
Proof.
  unfold classify. split.
  - destruct (rev m) as [|l before] eqn:E; [discriminate|].
    apply (f_equal (@rev string)) in E. rewrite rev_involutive in E. simpl in E.
    destruct (strings.HasSuffix l _) eqn:Hl.
    + intros [= <-]. eauto.
    + destruct before; [discriminate|]. now destruct (_ && _).
  - intros (pre & -> & Hc). rewrite rev_app_distr. simpl. now rewrite Hc.
Qed.

Lemma classify_CurrentNew (m : list string) (c n : string) :
  classify m = CurrentNew c n
  ↔ ∃ pre, m = (pre ++ [c; n])%list
           ∧ strings.HasSuffix n FileDest.newExt = true
           ∧ strings.HasSuffix c FileDest.currExt = true.
Proof.
  unfold classify. split.
  - destruct (rev m) as [|l before] eqn:E; [discriminate|].
    apply (f_equal (@rev string)) in E. rewrite rev_involutive in E. simpl in E.
    destruct (strings.HasSuffix l _) eqn:Hl; [discriminate|].
    destruct before as [|p before]; [discriminate|].
    destruct (strings.HasSuffix l FileDest.newExt) eqn:Hn; [|discriminate].
    destruct (strings.HasSuffix p FileDest.currExt) eqn:Hp; [|discriminate].
    intros [= <- <-]. exists (rev before). simpl in E.
    rewrite <- app_assoc in E. auto.
  - intros (pre & -> & Hn & Hc). rewrite rev_app_distr. simpl.
    now rewrite (new_not_curr _ Hn), Hn, Hc.
Qed.

Lemma nth_last_app {A} (pre : list A) (l d : A) :
  nth (List.length (pre ++ [l]) - 1) (pre ++ [l]) d = l.
Proof.
  rewrite length_app. simpl.
  replace (List.length pre + 1 - 1)%nat with (List.length pre) by lia.
  rewrite app_nth2 by lia. now rewrite Nat.sub_diag.
Qed.

(** [open_replay] follows the classification. *)
Lemma open_replay_classify (basepath : string) (m : list string) (w : World) :
  m ≠ [] →
  FileDest.open_replay basepath m w =
  match classify m with
  | Current c =>
      match os.Open c w with
      | inr err => inr (FileDest.error_opening c err)
      | inl f0 => inl ([f0], c)
      end
  | CurrentNew c n =>
      match os.Open c w with
      | inr err => inr (FileDest.error_opening c err)
      | inl f0 =>
          match os.Open n w with
          | inr err => inr (FileDest.error_opening n err)
          | inl f1 => inl ([f0; f1], n)
          end
      end
  | _ => inr (FileDest.ambiguous_segments basepath)
  end.
Proof.
  intros Hne. unfold FileDest.open_replay, classify.
  destruct (rev m) as [|l before] eqn:E.
  { apply (f_equal (@rev string)) in E. now rewrite rev_involutive in E. }
  apply (f_equal (@rev string)) in E. rewrite rev_involutive in E. simpl in E.
  subst m. rewrite nth_last_app.
  destruct (strings.HasSuffix l FileDest.currExt) eqn:Hl; [reflexivity|].
  destruct before as [|p before]; simpl.
  { now rewrite andb_false_r. }
  rewrite <- app_assoc. simpl.
  rewrite !length_app. simpl.
  replace (List.length (rev before) + 2 - 1)%nat
    with (Datatypes.S (List.length (rev before))) by lia.
  replace (Datatypes.S (List.length (rev before)) - 1)%nat
    with (List.length (rev before)) by lia.
  rewrite (app_nth2 (rev before) [p; l]) by lia. rewrite Nat.sub_diag. simpl.
  rewrite andb_true_r.
  destruct (strings.HasSuffix l FileDest.newExt),
    (strings.HasSuffix p FileDest.currExt); reflexivity.
Qed.

Lemma startNew_keeps (b : bool) (fd fd' : FileDest.fileDest) (w w' : World) :
  FileDest.startNew b fd w = ((None, fd'), w') →
  FileDest.replayReaders fd' = FileDest.replayReaders fd
  ∧ FileDest.oldFilename fd' = FileDest.oldFilename fd
  ∧ FileDest.basepath fd' = FileDest.basepath fd
  ∧ FileDest.snapOK fd' = false.
Proof.
  unfold FileDest.startNew.
  destruct (FileDest.createNewFile _ _ w) as [[[outF outFn]|err] w1]; [|discriminate].
  intros [= <- <-]. auto.
Qed.

Lemma createNewFile_from_failure_keeps_world (k i : nat) (name ext : string)
    (w w' : World) (e : error) :
  FileDest.createNewFile_from k i name ext w = (inr e, w') → w' = w.
Proof.
  revert i w. induction k as [|k IH]; intros i w; simpl.
  - now intros [= _ <-].
  - destruct (FileDest.taken _ w); [apply IH|].
    unfold os.OpenFile_excl.
    destruct (faults w !! _).
    + rewrite bool_decide_eq_true_2 by discriminate. now intros [= _ <-].
    + destruct (names w !! _); [|discriminate].
      rewrite bool_decide_eq_true_2 by discriminate. now intros [= _ <-].
Qed.

Lemma createNewFile_failure_keeps_world (name ext : string) (w w' : World) (e : error) :
  FileDest.createNewFile name ext w = (inr e, w') → w' = w.
Proof.
  unfold FileDest.createNewFile. apply createNewFile_from_failure_keeps_world.
Qed.

Lemma startNew_error (b : bool) (fd fd' : FileDest.fileDest) (w w' : World) (e : error) :
  FileDest.startNew b fd w = ((Some e, fd'), w') →
  fd' = fd ∧ w' = w
  ∧ ∃ err, e = Errorf ("Cannot create new log file: " ++ Error err).
Proof.
  unfold FileDest.startNew.
  destruct (FileDest.createNewFile _ _ w) as [[[outF outFn]|err] w1] eqn:E; [discriminate|].
  apply createNewFile_failure_keeps_world in E. subst w1.
  intros [= <- <- <-]. eauto.
Qed.

Lemma segments_nil (basepath : string) (w : World) :
  segments basepath w = [] ↔ filepath.Glob basepath ".plog" w = [].
Proof.
  unfold segments. split; intros E.
  - apply Permutation_nil_r. rewrite <- E. symmetry. apply sort_Strings_perm.
  - now rewrite E.
Qed.

Lemma NewFileDest_nonempty (basepath : string) (create : bool) (w : World) :
  strings.ContainsAny basepath "*?[\." = false →
  segments basepath w ≠ [] →
  FileDest.NewFileDest basepath create w =
  match FileDest.open_replay basepath (segments basepath w) w with
  | inr err => (inr err, w)
  | inl (rr, old) =>
      match FileDest.startNew true
              (FileDest.mkFileDest basepath rr None "" old false) w with
      | ((Some err, _), w') => (inr err, w')
      | ((None, fd'), w') => (inl fd', w')
      end
  end.
Proof.
  intros Hvalid Hne. unfold FileDest.NewFileDest. rewrite Hvalid.
  fold (segments basepath w).
  assert (Hg : filepath.Glob basepath ".plog" w ≠ []).
  { intros E. apply Hne. now apply segments_nil. }
  destruct (filepath.Glob basepath ".plog" w) as [|x g] eqn:Eg; [congruence|].
  simpl. destruct (FileDest.open_replay _ _ w) as [[rr old]|err]; reflexivity.
Qed.

Lemma createNewFile_first_free (name ext : string) (w : World) :
  FileDest.createNewFile name ext w =
  match first_free name w with
  | None => (inr (Errorf "Too many log files in the same second"), w)
  | Some j => create_exclusive (FileDest.stem name j ++ ext) w
  end.
Proof.
  unfold first_free.
  destruct (list_find _ (seq 96 27)) as [[i j]|] eqn:E;
    cbn [fmap option_fmap option_map snd]; unfold FileDest.createNewFile.
  - apply list_find_Some in E as (Hi & Hfree & Hbelow).
    apply lookup_seq in Hi as [-> Hi].
    apply (createNewFile_from_first_free 27 96 (96 + i)); [lia| |exact Hfree].
    intros j' Hj'. specialize (Hbelow (j' - 96)%nat j').
    destruct (FileDest.taken (FileDest.stem name j') w); [reflexivity|].
    exfalso. apply Hbelow; [|lia|reflexivity].
    apply lookup_seq. split; lia.
  - apply list_find_None in E. rewrite Forall_forall in E.
    apply (createNewFile_from_all_taken 27 96). intros j Hj.
    destruct (FileDest.taken (FileDest.stem name j) w) eqn:Ht; [reflexivity|].
    exfalso. apply (E j); [|exact Ht]. apply elem_of_seq. lia.
Qed.

Lemma open_replay_Current (basepath c : string) (w : World) :
  match os.Open c w with
  | inr err => inr (FileDest.error_opening c err)
  | inl f0 => inl ([f0], c)
  end
  = match open_all [c] w with inl fs => inl (fs, c) | inr e => inr e end.
Proof. simpl. now destruct (os.Open c w). Qed.

Lemma open_replay_CurrentNew (basepath c n : string) (w : World) :
  match os.Open c w with
  | inr err => inr (FileDest.error_opening c err)
  | inl f0 =>
      match os.Open n w with
      | inr err => inr (FileDest.error_opening n err)
      | inl f1 => inl ([f0; f1], n)
      end
  end
  = match open_all [c; n] w with inl fs => inl (fs, n) | inr e => inr e end.
Proof. simpl. destruct (os.Open c w); [|reflexivity]. now destruct (os.Open n w). Qed.

Lemma startNew_first_free (fd : FileDest.fileDest) (w : World) :
  FileDest.startNew true fd w =
  let name := FileDest.basepath fd ++ FileDest.Format_dateFmt (now w) in
  match first_free name w with
  | None =>
      ((Some (Errorf "Cannot create new log file: Too many log files in the same second"),
        fd), w)
  | Some j =>
      let n := FileDest.stem name j ++ FileDest.newExt in
      match os.OpenFile_excl n w with
      | (inr err, w') =>
          ((Some (Errorf ("Cannot create new log file: " ++ Error err)), fd), w')
      | (inl f, w') => ((None, FileDest.set_output (Some f) n false fd), w')
      end
  end.
Proof.
  unfold FileDest.startNew. rewrite createNewFile_first_free. cbv zeta.
  destruct (first_free _ w) as [j|]; [|reflexivity].
  unfold create_exclusive. now destruct (os.OpenFile_excl _ w) as [[f|err] w'].
Qed.

Lemma OpenFile_excl_failure_keeps_world (n : string) (w w' : World) (err : error) :
  os.OpenFile_excl n w = (inr err, w') → w' = w.
Proof.
  unfold os.OpenFile_excl. destruct (faults w !! n); [now intros [= _ <-]|].
  destruct (names w !! n); [now intros [= _ <-] | discriminate].
Qed.

Lemma NewFileDest_opens_replaying (basepath : string) (create : bool) (w : World)
    (cs : list string) (old : string) :
  strings.ContainsAny basepath "*?[\." = false →
  segments basepath w ≠ [] →
  FileDest.open_replay basepath (segments basepath w) w
  = match open_all cs w with inl fs => inl (fs, old) | inr e => inr e end →
  FileDest.NewFileDest basepath create w = opens_replaying basepath cs old w.
Proof.
  intros Hvalid Hne Hopen. rewrite NewFileDest_nonempty by assumption.
  rewrite Hopen. unfold opens_replaying.
  destruct (open_all cs w) as [fs|e]; [|reflexivity].
  rewrite startNew_first_free. cbv zeta. cbn [FileDest.basepath].
  destruct (first_free _ w) as [j|]; [|reflexivity].
  destruct (os.OpenFile_excl _ w) as [[f|err] w'] eqn:Ho; [reflexivity|].
  now apply OpenFile_excl_failure_keeps_world in Ho as ->.
Qed.

(** C2.  [NewFileDest] on a valid basepath classifies the sorted
    enumeration of the segments.  Empty with [create = false]: it fails
    with "No existing log file found" and the directory is untouched.
    Last entry current: the replay is one reader, on that file.  Last
    entry new and the entry before it current: the replay is these two
    files, the older first.  In these two cases the call is exactly the
    opening described by [opens_replaying]: it returns a destination
    holding the descriptors opened on these files whenever they open and
    the output segment can be created.  Any other shape: it fails with
    "Cannot determine current (&new) logs". *)
Theorem NewFileDest_classifies (basepath : string) (create : bool) (w : World) :
  strings.ContainsAny basepath "*?[\." = false →
  let m := segments basepath w in
  let res := FileDest.NewFileDest basepath create w in
  (m = [] → create = false →
   res = (inr (FileDest.no_existing_log basepath), w))
  ∧ (∀ c, classify m = Current c → res = opens_replaying basepath [c] c w)
  ∧ (∀ c n, classify m = CurrentNew c n → res = opens_replaying basepath [c; n] n w)
  ∧ (classify m = Ambiguous →
     res = (inr (FileDest.ambiguous_segments basepath), w)).
Proof.
  intros Hvalid m res. subst res. repeat split.
  - intros Hm ->. unfold FileDest.NewFileDest. rewrite Hvalid.
    apply segments_nil in Hm. now rewrite Hm.
  - intros c Hc.
    assert (Hne : m ≠ []) by (intros E; apply classify_Virgin in E; congruence).
    apply NewFileDest_opens_replaying; [assumption..|].
    rewrite open_replay_classify by assumption. fold m. rewrite Hc.
    now apply open_replay_Current.
  - intros c n Hc.
    assert (Hne : m ≠ []) by (intros E; apply classify_Virgin in E; congruence).
    apply NewFileDest_opens_replaying; [assumption..|].
    rewrite open_replay_classify by assumption. fold m. rewrite Hc.
    now apply open_replay_CurrentNew.
  - intros Hc.
    assert (Hne : m ≠ []) by (intros E; apply classify_Virgin in E; congruence).
    rewrite NewFileDest_nonempty, open_replay_classify by assumption.
    fold m. now rewrite Hc.
Qed.

Lemma NewFileDest_classifies_witness :
  FileDest.NewFileDest "/tmp/t/nf" false world0
  = (inr (FileDest.no_existing_log "/tmp/t/nf"), world0)
  ∧ FileDest.NewFileDest "/tmp/t/nf" false world_curr
    = opens_replaying "/tmp/t/nf" [stem0 ++ "-curr.plog"] (stem0 ++ "-curr.plog")
        world_curr
  ∧ FileDest.NewFileDest "/tmp/t/nf" false world_curr_new
    = opens_replaying "/tmp/t/nf" [stem0 ++ "-curr.plog"; stem0 ++ "a-new.plog"]
        (stem0 ++ "a-new.plog") world_curr_new
  ∧ FileDest.NewFileDest "/tmp/t/nf" true world_lone_new
    = (inr (FileDest.ambiguous_segments "/tmp/t/nf"), world_lone_new).
Proof.
  split; [|split; [|split]].
  - destruct (NewFileDest_classifies "/tmp/t/nf" false world0 eq_refl) as (H & _).
    apply H; [vm_compute|]; reflexivity.
  - destruct (NewFileDest_classifies "/tmp/t/nf" false world_curr eq_refl)
      as (_ & H & _).
    refine (H (stem0 ++ "-curr.plog") _). vm_compute. reflexivity.
  - destruct (NewFileDest_classifies "/tmp/t/nf" false world_curr_new eq_refl)
      as (_ & _ & H & _).
    refine (H (stem0 ++ "-curr.plog") (stem0 ++ "a-new.plog") _).
    vm_compute. reflexivity.
  - destruct (NewFileDest_classifies "/tmp/t/nf" true world_lone_new eq_refl)
      as (_ & _ & _ & H).
    apply H. vm_compute. reflexivity.
Defined.

(** On the examples: the destination opened on one current segment
    replays that file, and the one opened on a current segment followed
    by a new one replays the two, the current one first. *)
Example NewFileDest_replay_readers :
  FileDest.replayReaders (fst (opened (FileDest.NewFileDest "/tmp/t/nf" false world_curr)))
  = [mkFile (stem0 ++ "-curr.plog") 0]
  ∧ FileDest.replayReaders (fst dest3)
    = [mkFile (stem0 ++ "-curr.plog") 0; mkFile (stem0 ++ "a-new.plog") 1]
  ∧ FileDest.outputFilename (fst dest3) = stem0 ++ "b-new.plog".
Proof. vm_compute. auto. Qed.

(** ** The snapshot flag (C3) *)

Lemma EndRotate_snapOK (fd fd' : FileDest.fileDest) (w w' : World) (err : option error) :
  FileDest.EndRotate fd w = ((err, fd'), w') →
  match err with
  | None => FileDest.snapOK fd = false ∧ FileDest.snapOK fd' = true
  | Some _ => FileDest.snapOK fd' = FileDest.snapOK fd
  end.
Proof.
  unfold FileDest.EndRotate.
  destruct (FileDest.snapOK fd) eqn:Hs; [now intros [= <- <- _]|].
  destruct (String.eqb (FileDest.oldFilename fd) "").
  { destruct (negb _); intros [= <- <- _]; auto. }
  destruct (negb _); [now intros [= <- <- _]|].
  destruct (os.Rename (FileDest.outputFilename fd) _ w) as [[e|] w1];
    [now intros [= <- <- _]|].
  simpl.
  destruct (strings.HasSuffix (FileDest.oldFilename fd) FileDest.currExt).
  - destruct (os.Rename (FileDest.oldFilename fd) _ w1) as [[e|] w2];
      intros [= <- <- _]; auto.
  - destruct (strings.HasSuffix (FileDest.oldFilename fd) FileDest.newExt).
    + destruct (os.Rename (FileDest.oldFilename fd) _ w1) as [[e|] w2];
        intros [= <- <- _]; auto.
    + now intros [= <- <- _].
Qed.

Lemma StartRotate_snapOK (fd fd' : FileDest.fileDest) (w w' : World) (err : option error) :
  FileDest.StartRotate fd w = ((err, fd'), w') →
  match err with
  | None => FileDest.snapOK fd = true ∧ FileDest.snapOK fd' = false
  | Some _ => FileDest.snapOK fd' = FileDest.snapOK fd
  end.
Proof.
  unfold FileDest.StartRotate.
  destruct (FileDest.snapOK fd) eqn:Hs; simpl; [|now intros [= <- <- _]].
  destruct err as [e|]; intros Hn.
  - apply startNew_error in Hn as (-> & _). reflexivity.
  - apply startNew_keeps in Hn as (_ & _ & _ & ->). auto.
Qed.

Lemma NewFileDest_snapOK (basepath : string) (create : bool) (w w' : World)
    (fd : FileDest.fileDest) :
  FileDest.NewFileDest basepath create w = (inl fd, w') →
  FileDest.snapOK fd = false.
Proof.
  unfold FileDest.NewFileDest.
  destruct (strings.ContainsAny basepath _); [discriminate|].
  match goal with
  | |- context [match ?c with inl _ => _ | inr _ => _ end = _] =>
      destruct c as [fd0|err]; [|discriminate]
  end.
  destruct (FileDest.startNew _ fd0 w) as [[[e|] fd1] w1] eqn:Hs; [discriminate|].
  intros [= <- <-]. now apply startNew_keeps in Hs.
Qed.

Lemma fd_run_snapOK (ops : list fd_op) (fd fd' : FileDest.fileDest) (w w' : World)
    (trace : list (fd_op * option error)) :
  fd_run ops (fd, w) = (trace, (fd', w')) →
  FileDest.snapOK fd' = after_EndRotate (FileDest.snapOK fd) trace.
Proof.
  revert fd w trace. induction ops as [|op ops IH]; intros fd w trace.
  - simpl. now intros [= <- <- <-].
  - cbn [fd_run].
    destruct (fd_step op (fd, w)) as [err [fd1 w1]] eqn:Hstep.
    destruct (fd_run ops (fd1, w1)) as [tr [fd2 w2]] eqn:Hrun.
    intros [= <- <- <-]. apply IH in Hrun. rewrite Hrun. clear Hrun IH.
    destruct op; simpl in Hstep.
    + destruct (FileDest.StartRotate fd w) as [[e f] w0] eqn:E.
      injection Hstep as <- <- <-. apply StartRotate_snapOK in E.
      destruct e; simpl; [now rewrite E | now destruct E as [_ ->]].
    + destruct (FileDest.EndRotate fd w) as [[e f] w0] eqn:E.
      injection Hstep as <- <- <-. apply EndRotate_snapOK in E.
      destruct e; simpl; [now rewrite E | now destruct E as [_ ->]].
    + destruct (FileDest.Write p fd w) as [[n e] w0].
      now injection Hstep as <- <- <-.
    + injection Hstep as <- <- <-. simpl.
      unfold FileDest.Close. simpl. now destruct (FileDest.outputFile fd).
    + now injection Hstep as <- <- <-.
Qed.

(** C3.  [StartRotate] with [snapOK] false fails with "Cannot rotate:
    initial snapshot incomplete" and changes nothing; [EndRotate] with
    [snapOK] true fails with "internal error: StartRotate not called"; a
    successful [EndRotate] starts from [snapOK] false and sets it; opening
    a destination and a successful [StartRotate] leave it false.  So in
    any run of calls on a destination just opened, [snapOK] is true
    exactly when the last successful rotation call is an [EndRotate]. *)
Theorem snapOK_between_EndRotate_and_StartRotate :
  (∀ fd w, FileDest.snapOK fd = false →
     FileDest.StartRotate fd w = ((Some FileDest.rotate_before_snapshot, fd), w))
  ∧ (∀ fd w, FileDest.snapOK fd = true →
     FileDest.EndRotate fd w = ((Some FileDest.double_end_rotate, fd), w))
  ∧ (∀ fd w fd' w', FileDest.EndRotate fd w = ((None, fd'), w') →
     FileDest.snapOK fd = false ∧ FileDest.snapOK fd' = true)
  ∧ (∀ fd w fd' w', FileDest.StartRotate fd w = ((None, fd'), w') →
     FileDest.snapOK fd = true ∧ FileDest.snapOK fd' = false)
  ∧ (∀ basepath create w fd w',
     FileDest.NewFileDest basepath create w = (inl fd, w') →
     FileDest.snapOK fd = false
     ∧ ∀ ops trace fd'' w'',
         fd_run ops (fd, w') = (trace, (fd'', w'')) →
         FileDest.snapOK fd'' = after_EndRotate false trace).
Proof.
  split; [|split; [|split; [|split]]].
  - intros fd w Hs. unfold FileDest.StartRotate. now rewrite Hs.
  - intros fd w Hs. unfold FileDest.EndRotate. now rewrite Hs.
  - intros fd w fd' w' E. now apply EndRotate_snapOK in E.
  - intros fd w fd' w' E. now apply StartRotate_snapOK in E.
  - intros basepath create w fd w' E. apply NewFileDest_snapOK in E.
    split; [exact E|]. intros ops trace fd'' w'' Hrun.
    apply fd_run_snapOK in Hrun. now rewrite E in Hrun.
Qed.

Lemma snapOK_between_EndRotate_and_StartRotate_witness :
  FileDest.StartRotate (fst dest0) (snd dest0)
  = ((Some FileDest.rotate_before_snapshot, fst dest0), snd dest0)
  ∧ FileDest.EndRotate (fst dest1) (snd dest1)
    = ((Some FileDest.double_end_rotate, fst dest1), snd dest1)
  ∧ (FileDest.snapOK (fst dest0) = false ∧ FileDest.snapOK (fst dest1) = true)
  ∧ (FileDest.snapOK (fst dest1) = true ∧ FileDest.snapOK (fst dest2) = false)
  ∧ FileDest.snapOK (fst dest0) = false.
Proof.
  pose proof snapOK_between_EndRotate_and_StartRotate as (H1 & H2 & H3 & H4 & H5).
  split; [|split; [|split; [|split]]].
  - apply H1. reflexivity.
  - apply H2. reflexivity.
  - apply (H3 (fst dest0) (snd dest0) (fst dest1) (snd dest1)).
    vm_compute. reflexivity.
  - apply (H4 (fst dest1) (snd dest1) (fst dest2) (snd dest2)).
    vm_compute. reflexivity.
  - apply (H5 "/tmp/t/nf" true world0 (fst dest0) (snd dest0)).
    vm_compute. reflexivity.
Defined.

(** ** Demoting a previous segment that is new (C7) *)

Lemma Rename_names (old new : string) (w w' : World) :
  os.Rename old new w = (None, w') →
  ∃ i, names w !! old = Some i
       ∧ names w' = <[new := i]> (delete old (names w))
       ∧ data w' = data w ∧ faults w' = faults w ∧ now w' = now w.
Proof.
  unfold os.Rename.
  destruct (faults w !! old); [discriminate|].
  destruct (faults w !! new); [discriminate|].
  destruct (names w !! old) as [i|]; [|discriminate].
  intros [= <-]. exists i. auto.
Qed.

Lemma Rename_other (old new x : string) (w w' : World) :
  os.Rename old new w = (None, w') → x ≠ old → x ≠ new →
  names w' !! x = names w !! x.
Proof.
  intros Hr Ho Hn. apply Rename_names in Hr as (i & _ & -> & _).
  rewrite lookup_insert_ne by congruence. now rewrite lookup_delete_ne by congruence.
Qed.

(** C7.  [EndRotate] on a destination whose previous segment ends in
    [-new.plog]: when the OS lets the two renames through, the call
    succeeds and the world it leaves is the one after exactly these two
    renames, the output segment from [-new] to [-curr] and then the
    previous segment from [-new] to [-old].  Every segment ending in
    [-curr.plog] (other than the name just given to the output segment)
    is still in the directory under its name, bound to the same file: the
    current segment that precedes the demoted one is not renamed. *)
Theorem EndRotate_leaves_older_curr (fd : FileDest.fileDest) (w w1 w2 : World) :
  FileDest.snapOK fd = false →
  strings.HasSuffix (FileDest.oldFilename fd) FileDest.newExt = true →
  strings.HasSuffix (FileDest.outputFilename fd) FileDest.newExt = true →
  let newName :=
    strings.TrimSuffix (FileDest.outputFilename fd) FileDest.newExt ++ FileDest.currExt in
  let oldName :=
    strings.TrimSuffix (FileDest.oldFilename fd) FileDest.newExt ++ FileDest.oldExt in
  os.Rename (FileDest.outputFilename fd) newName w = (None, w1) →
  os.Rename (FileDest.oldFilename fd) oldName w1 = (None, w2) →
  FileDest.EndRotate fd w
  = ((None, FileDest.set_snapOK true
              (FileDest.set_oldFilename "" (FileDest.set_outputFilename newName fd))),
     w2)
  ∧ ∀ c, strings.HasSuffix c FileDest.currExt = true → c ≠ newName →
         names w2 !! c = names w !! c.
Proof.
  intros Hs Hold Hout newName oldName Hr1 Hr2. split.
  - unfold FileDest.EndRotate. rewrite Hs.
    assert (Hne : String.eqb (FileDest.oldFilename fd) "" = false).
    { apply String.eqb_neq. eapply HasSuffix_nonempty; [|exact Hold]. discriminate. }
    rewrite Hne, Hout. simpl negb. cbv iota.
    fold newName. rewrite Hr1. simpl.
    rewrite (new_not_curr _ Hold), Hold. fold oldName. now rewrite Hr2.
  - intros c Hc Hnew.
    assert (Hc_out : c ≠ FileDest.outputFilename fd).
    { intros ->. rewrite (new_not_curr _ Hout) in Hc. discriminate. }
    assert (Hc_old : c ≠ FileDest.oldFilename fd).
    { intros ->. rewrite (new_not_curr _ Hold) in Hc. discriminate. }
    assert (Hc_oldName : c ≠ oldName).
    { intros ->. unfold oldName in Hc.
      rewrite (old_not_curr _ (HasSuffix_app _ _)) in Hc. discriminate. }
    rewrite (Rename_other _ _ c _ _ Hr2), (Rename_other _ _ c _ _ Hr1); auto.
Qed.

Lemma EndRotate_leaves_older_curr_witness :
  FileDest.EndRotate (fst dest3) (snd dest3)
  = ((None, FileDest.set_snapOK true
              (FileDest.set_oldFilename ""
                 (FileDest.set_outputFilename
                    (strings.TrimSuffix (FileDest.outputFilename (fst dest3))
                       FileDest.newExt ++ FileDest.currExt) (fst dest3)))),
     world3b)
  ∧ ∀ c, strings.HasSuffix c FileDest.currExt = true →
         c ≠ strings.TrimSuffix (FileDest.outputFilename (fst dest3))
               FileDest.newExt ++ FileDest.currExt →
         names world3b !! c = names (snd dest3) !! c.
Proof.
  apply (EndRotate_leaves_older_curr (fst dest3) (snd dest3) world3a world3b);
    vm_compute; reflexivity.
Defined.

(** The instance of C7 on the example: the older current segment is
    still there next to the newly promoted one. *)
Example EndRotate_two_current_segments :
  elements (paths (snd (FileDest.EndRotate (fst dest3) (snd dest3))))
  = [stem0 ++ "-curr.plog"; stem0 ++ "a-old.plog"; stem0 ++ "b-curr.plog"].
Proof. vm_compute. reflexivity. Qed.

(** ** More on the file destination *)

Lemma OpenFile_excl_success (n : string) (w w' : World) (f : File) :
  os.OpenFile_excl n w = (inl f, w') →
  f = mkFile n (fresh (dom (data w)))
  ∧ faults w !! n = None ∧ names w !! n = None
  ∧ names w' = <[n := f_ino f]> (names w)
  ∧ data w' = <[f_ino f := []]> (data w)
  ∧ data w !! f_ino f = None
  ∧ faults w' = faults w ∧ now w' = now w.
Proof.
  unfold os.OpenFile_excl.
  destruct (faults w !! n) eqn:Hf; [discriminate|].
  destruct (names w !! n) eqn:Hn; [discriminate|].
  intros [= <- <-]. simpl. repeat split; try reflexivity.
  apply not_elem_of_dom. apply is_fresh.
Qed.

Lemma createNewFile_from_success (k i : nat) (name ext : string) (w w' : World)
    (f : File) (n : string) :
  FileDest.createNewFile_from k i name ext w = (inl (f, n), w') →
  ∃ j, (i <= j < i + k)%nat
       ∧ n = FileDest.stem name j ++ ext
       ∧ FileDest.taken (FileDest.stem name j) w = false
       ∧ os.OpenFile_excl n w = (inl f, w').
Proof.
  revert i. induction k as [|k IH]; intros i; [discriminate|].
  cbn [FileDest.createNewFile_from]. cbv zeta.
  destruct (FileDest.taken (FileDest.stem name i) w) eqn:Ht.
  - intros E. apply IH in E as (j & Hj & E). exists j. split; [lia | exact E].
  - destruct (os.OpenFile_excl (FileDest.stem name i ++ ext) w)
      as [[fd|err] w1] eqn:Ho.
    + intros [= <- <- <-]. exists i. repeat split; auto; lia.
    + apply OpenFile_excl_not_ErrExist in Ho as Hne.
      rewrite bool_decide_eq_true_2 by exact Hne. discriminate.
Qed.

Lemma createNewFile_success (name ext : string) (w w' : World) (f : File) (n : string) :
  FileDest.createNewFile name ext w = (inl (f, n), w') →
  ∃ j, (96 <= j <= 122)%nat
       ∧ n = FileDest.stem name j ++ ext
       ∧ FileDest.taken (FileDest.stem name j) w = false
       ∧ os.OpenFile_excl n w = (inl f, w').
Proof.
  unfold FileDest.createNewFile. intros E.
  apply createNewFile_from_success in E as (j & Hj & E). exists j. split; [lia | exact E].
Qed.

(** [createNewFile] never disturbs what is there: every entry of the
    directory is still bound to the same file with the same contents, and
    a failure leaves the world exactly as it was.  On success the name
    returned is new in the directory and bound to a new, empty file. *)
Theorem createNewFile_keeps_directory (name ext : string) (w : World) :
  let '(res, w') := FileDest.createNewFile name ext w in
  (∀ x i, names w !! x = Some i → names w' !! x = Some i)
  ∧ (∀ i bs, data w !! i = Some bs → data w' !! i = Some bs)
  ∧ match res with
    | inr _ => w' = w
    | inl (f, n) =>
        f_name f = n ∧ names w !! n = None
        ∧ names w' !! n = Some (f_ino f)
        ∧ data w !! f_ino f = None ∧ data w' !! f_ino f = Some []
    end.
Proof.
  destruct (FileDest.createNewFile name ext w) as [[[f n]|e] w'] eqn:E.
  - apply createNewFile_success in E as (j & _ & _ & _ & E).
    apply OpenFile_excl_success in E as (-> & _ & Hn & Hn' & Hd' & Hd & _).
    simpl in *. rewrite Hn', Hd'. repeat split.
    + intros x i Hx. rewrite lookup_insert_ne; [exact Hx | congruence].
    + intros i bs Hi. rewrite lookup_insert_ne; [exact Hi | congruence].
    + exact Hn.
    + apply lookup_insert_eq.
    + exact Hd.
    + apply lookup_insert_eq.
  - apply createNewFile_failure_keeps_world in E. subst w'. auto.
Qed.

(** Whenever [NewFileDest] fails it has created nothing: the world is as
    it was before the call. *)
Theorem NewFileDest_failure_creates_nothing (basepath : string) (create : bool) (w : World) :
  match FileDest.NewFileDest basepath create w with
  | (inr _, w') => w' = w
  | (inl _, _) => True
  end.
Proof.
  unfold FileDest.NewFileDest.
  destruct (strings.ContainsAny basepath _); [reflexivity|].
  match goal with
  | |- context [match ?c with inl _ => _ | inr _ => _ end] =>
      destruct c as [fd0|err]; [|reflexivity]
  end.
  destruct (FileDest.startNew _ fd0 w) as [[[e|] fd1] w1] eqn:Hs; [|exact I].
  now apply startNew_error in Hs as (_ & -> & _).
Qed.

Lemma startNew_output (b : bool) (fd fd' : FileDest.fileDest) (w w' : World) :
  FileDest.startNew b fd w = ((None, fd'), w') →
  ∃ f, FileDest.outputFile fd' = Some f
    ∧ f_name f = FileDest.outputFilename fd'
    ∧ strings.HasSuffix (FileDest.outputFilename fd')
        (if b then FileDest.newExt else FileDest.currExt) = true
    ∧ names w !! FileDest.outputFilename fd' = None
    ∧ names w' = <[FileDest.outputFilename fd' := f_ino f]> (names w)
    ∧ faults w' = faults w ∧ now w' = now w
    ∧ ∃ j, (96 <= j <= 122)%nat
        ∧ FileDest.outputFilename fd'
          = FileDest.stem (FileDest.basepath fd ++ FileDest.Format_dateFmt (now w)) j
            ++ (if b then FileDest.newExt else FileDest.currExt)
        ∧ FileDest.taken
            (FileDest.stem (FileDest.basepath fd ++ FileDest.Format_dateFmt (now w)) j) w
          = false.
Proof.
  unfold FileDest.startNew.
  destruct (FileDest.createNewFile _ _ w) as [[[outF outFn]|err] w1] eqn:E; [|discriminate].
  intros [= <- <-]. simpl.
  apply createNewFile_success in E as (j & Hj & Hn & Ht & E).
  apply OpenFile_excl_success in E as (Hf & _ & Habs & Hn' & _ & _ & Hfa & Hnow).
  exists outF. split; [reflexivity|]. split; [now rewrite Hf|].
  split; [rewrite Hn; apply HasSuffix_app|].
  split; [exact Habs|]. split; [exact Hn'|]. split; [exact Hfa|]. split; [exact Hnow|].
  exists j. auto.
Qed.


(** Opening a log on a basepath that has segments: the output segment is
    a new file ending in [-new.plog], and the previous segment recorded
    for the next [EndRotate] is the last segment of the enumeration. *)
Theorem NewFileDest_existing (basepath : string) (create : bool) (w w' : World)
    (fd : FileDest.fileDest) :
  strings.ContainsAny basepath "*?[\." = false →
  segments basepath w ≠ [] →
  FileDest.NewFileDest basepath create w = (inl fd, w') →
  strings.HasSuffix (FileDest.outputFilename fd) FileDest.newExt = true
  ∧ last (segments basepath w) = Some (FileDest.oldFilename fd)
  ∧ is_Some (names w !! FileDest.oldFilename fd)
  ∧ names w !! FileDest.outputFilename fd = None
  ∧ paths w' = {[ FileDest.outputFilename fd ]} ∪ paths w.
Proof.
  intros Hvalid Hne. rewrite NewFileDest_nonempty, open_replay_classify by assumption.
  assert (Hlast : ∀ pre l, segments basepath w = (pre ++ [l])%list →
            last (segments basepath w) = Some l ∧ is_Some (names w !! l)).
  { intros pre l E. split; [rewrite E; apply last_snoc|].
    assert (Hin : l ∈ segments basepath w) by (rewrite E; set_solver).
    unfold segments in Hin. rewrite sort_Strings_perm in Hin.
    apply elem_of_Glob in Hin as [Hin _]. unfold paths in Hin.
    now apply elem_of_dom in Hin. }
  destruct (classify (segments basepath w)) as [|c|c n|] eqn:Hc; try discriminate.
  - apply classify_Current in Hc as (pre & E & _).
    destruct (Hlast pre c E) as [Hl Hin].
    destruct (os.Open c w) as [f0|err]; [|discriminate].
    destruct (FileDest.startNew _ _ w) as [[[e|] fd'] w1] eqn:Hs; [discriminate|].
    intros [= <- <-].
    pose proof (startNew_keeps _ _ _ _ _ Hs) as (_ & Hold & _).
    apply startNew_output in Hs as (f & _ & _ & Hsuf & Habs & Hn' & _).
    simpl in Hold. rewrite Hold. repeat split; auto.
    unfold paths. rewrite Hn'. apply dom_insert_L.
  - apply classify_CurrentNew in Hc as (pre & E & _).
    destruct (Hlast (pre ++ [c])%list n) as [Hl Hin].
    { rewrite E, <- app_assoc. reflexivity. }
    destruct (os.Open c w) as [f0|err]; [|discriminate].
    destruct (os.Open n w) as [f1|err]; [|discriminate].
    destruct (FileDest.startNew _ _ w) as [[[e|] fd'] w1] eqn:Hs; [discriminate|].
    intros [= <- <-].
    pose proof (startNew_keeps _ _ _ _ _ Hs) as (_ & Hold & _).
    apply startNew_output in Hs as (f & _ & _ & Hsuf & Habs & Hn' & _).
    simpl in Hold. rewrite Hold. repeat split; auto.
    unfold paths. rewrite Hn'. apply dom_insert_L.
Qed.

(** [Close] is idempotent, and final for writing: the replay readers and
    the output file are gone, so a [Write] after it fails with
    [os.ErrInvalid] and writes nothing. *)
Theorem Close_is_idempotent (fd : FileDest.fileDest) :
  FileDest.Close (FileDest.Close fd) = FileDest.Close fd
  ∧ FileDest.ReplayReaders (FileDest.Close fd) = []
  ∧ FileDest.outputFile (FileDest.Close fd) = None
  ∧ FileDest.basepath (FileDest.Close fd) = ""
  ∧ ∀ p w, FileDest.Write p (FileDest.Close fd) w = ((0%Z, Some ErrInvalid), w).
Proof.
  unfold FileDest.Close, FileDest.Write, FileDest.ReplayReaders. simpl.
  destruct (FileDest.outputFile fd); simpl; repeat split; reflexivity.
Qed.


Lemma NewFileDest_existing_witness :
  strings.HasSuffix (FileDest.outputFilename (fst dest3)) FileDest.newExt = true
  ∧ last (segments "/tmp/t/nf" world_curr_new) = Some (FileDest.oldFilename (fst dest3))
  ∧ is_Some (names world_curr_new !! FileDest.oldFilename (fst dest3))
  ∧ names world_curr_new !! FileDest.outputFilename (fst dest3) = None
  ∧ paths (snd dest3) = {[ FileDest.outputFilename (fst dest3) ]} ∪ paths world_curr_new.
Proof.
  apply (NewFileDest_existing "/tmp/t/nf" false world_curr_new (snd dest3) (fst dest3)).
  - reflexivity.
  - vm_compute. discriminate.
  - vm_compute. reflexivity.
Defined.

(** *** A whole rotation *)

Lemma EndRotate_demotes_current (fd : FileDest.fileDest) (w w1 w2 : World) :
  FileDest.snapOK fd = false →
  strings.HasSuffix (FileDest.oldFilename fd) FileDest.currExt = true →
  strings.HasSuffix (FileDest.outputFilename fd) FileDest.newExt = true →
  let newName :=
    strings.TrimSuffix (FileDest.outputFilename fd) FileDest.newExt ++ FileDest.currExt in
  let oldName :=
    strings.TrimSuffix (FileDest.oldFilename fd) FileDest.currExt ++ FileDest.oldExt in
  os.Rename (FileDest.outputFilename fd) newName w = (None, w1) →
  os.Rename (FileDest.oldFilename fd) oldName w1 = (None, w2) →
  FileDest.EndRotate fd w
  = ((None, FileDest.set_snapOK true
              (FileDest.set_oldFilename "" (FileDest.set_outputFilename newName fd))),
     w2).
Proof.
  intros Hs Hold Hout newName oldName Hr1 Hr2.
  unfold FileDest.EndRotate. rewrite Hs.
  assert (Hne : String.eqb (FileDest.oldFilename fd) "" = false).
  { apply String.eqb_neq. eapply HasSuffix_nonempty; [|exact Hold]. discriminate. }
  rewrite Hne, Hout. simpl negb. cbv iota.
  fold newName. rewrite Hr1. simpl.
  rewrite Hold. fold oldName. now rewrite Hr2.
Qed.

Lemma Rename_succeeds (old new : string) (w : World) (i : nat) :
  faults w = ∅ → names w !! old = Some i →
  os.Rename old new w
  = (None, set_names (fun m => <[new := i]> (delete old m)) w).
Proof.
  intros Hf Hn. unfold os.Rename. rewrite Hf, !lookup_empty, Hn. reflexivity.
Qed.

Lemma StartRotate_startNew (fd : FileDest.fileDest) (w : World) :
  FileDest.snapOK fd = true →
  FileDest.StartRotate fd w =
  FileDest.startNew true
    (FileDest.mkFileDest (FileDest.basepath fd) (FileDest.replayReaders fd)
       None "" (FileDest.outputFilename fd) (FileDest.snapOK fd)) w.
Proof.
  intros Hs. unfold FileDest.StartRotate. cbv zeta.
  generalize (FileDest.startNew true
    (FileDest.mkFileDest (FileDest.basepath fd) (FileDest.replayReaders fd)
       None "" (FileDest.outputFilename fd) (FileDest.snapOK fd)) w).
  rewrite Hs. intros p. reflexivity.
Qed.

Lemma StartRotate_new_segment (fd fd1 : FileDest.fileDest) (w w1 : World) :
  FileDest.snapOK fd = true →
  FileDest.StartRotate fd w = ((None, fd1), w1) →
  ∃ f stem_j,
    FileDest.oldFilename fd1 = FileDest.outputFilename fd
    ∧ FileDest.snapOK fd1 = false
    ∧ FileDest.outputFile fd1 = Some f
    ∧ FileDest.outputFilename fd1 = stem_j ++ FileDest.newExt
    ∧ FileDest.taken stem_j w = false
    ∧ names w1 = <[FileDest.outputFilename fd1 := f_ino f]> (names w)
    ∧ faults w1 = faults w.
Proof.
  intros Hs Hstart.
  rewrite (StartRotate_startNew fd w Hs) in Hstart.
  pose proof (startNew_keeps _ _ _ _ _ Hstart) as (_ & Hold1 & _ & Hs1).
  apply startNew_output in Hstart
    as (f & Hof & _ & _ & _ & Hn1 & Hf1 & _ & j & _ & Hname & Hfree).
  exists f, (FileDest.stem (FileDest.basepath fd ++ FileDest.Format_dateFmt (now w)) j).
  split; [exact Hold1|]. split; [exact Hs1|]. split; [exact Hof|].
  split; [exact Hname|]. split; [exact Hfree|]. split; [exact Hn1 | exact Hf1].
Qed.

Lemma EndRotate_after_StartRotate (fd1 : FileDest.fileDest) (w w1 : World)
    (prev stem_j : string) (f : File) (i : nat) :
  faults w1 = ∅ →
  strings.HasSuffix prev FileDest.currExt = true →
  names w !! prev = Some i →
  FileDest.oldFilename fd1 = prev →
  FileDest.snapOK fd1 = false →
  FileDest.outputFilename fd1 = stem_j ++ FileDest.newExt →
  FileDest.taken stem_j w = false →
  names w1 = <[stem_j ++ FileDest.newExt := f_ino f]> (names w) →
  let cur := stem_j ++ FileDest.currExt in
  let old := strings.TrimSuffix prev FileDest.currExt ++ FileDest.oldExt in
  ∃ w2,
    FileDest.EndRotate fd1 w1
    = ((None, FileDest.set_snapOK true
                (FileDest.set_oldFilename "" (FileDest.set_outputFilename cur fd1))),
       w2)
    ∧ names w2 !! cur = Some (f_ino f)
    ∧ names w2 !! old = Some i
    ∧ names w !! cur = None
    ∧ paths w2 = {[ cur; old ]} ∪ (paths w ∖ {[ prev ]})
    ∧ faults w2 = ∅.
Proof.
  intros Hfw1 Hsuf Hprev Hold1 Hs1 Hname Hfree Hn1 cur old.
  assert (Hout_abs : names w !! (stem_j ++ FileDest.newExt) = None)
    by (apply not_taken_absent; [reflexivity | exact Hfree]).
  assert (Hcur_abs : names w !! cur = None)
    by (apply not_taken_absent; [reflexivity | exact Hfree]).
  assert (Hcur_suf : strings.HasSuffix cur FileDest.currExt = true)
    by apply HasSuffix_app.
  assert (Hprev_out : prev ≠ stem_j ++ FileDest.newExt).
  { intros E. rewrite E, Hout_abs in Hprev. discriminate. }
  assert (Hprev_cur : prev ≠ cur).
  { intros E. rewrite E, Hcur_abs in Hprev. discriminate. }
  assert (Hold_cur : old ≠ cur).
  { intros E. rewrite <- E in Hcur_suf. unfold old in Hcur_suf.
    rewrite (old_not_curr _ (HasSuffix_app _ _)) in Hcur_suf. discriminate. }
  assert (Hout_cur : stem_j ++ FileDest.newExt ≠ cur).
  { intros E. rewrite <- E in Hcur_suf.
    rewrite (new_not_curr _ (HasSuffix_app _ _)) in Hcur_suf. discriminate. }
  set (w1' := set_names (fun m => <[cur := f_ino f]>
                           (delete (stem_j ++ FileDest.newExt) m)) w1).
  set (w2 := set_names (fun m => <[old := i]> (delete prev m)) w1').
  assert (Hr1 : os.Rename (stem_j ++ FileDest.newExt) cur w1 = (None, w1')).
  { apply Rename_succeeds; [exact Hfw1|]. rewrite Hn1. apply lookup_insert_eq. }
  assert (Hr2 : os.Rename prev old w1' = (None, w2)).
  { apply Rename_succeeds; [exact Hfw1|]. unfold w1'. cbn [names set_names].
    rewrite Hn1.
    rewrite lookup_insert_ne by congruence.
    rewrite lookup_delete_ne by congruence.
    rewrite lookup_insert_ne by congruence. exact Hprev. }
  exists w2. split.
  { rewrite (EndRotate_demotes_current fd1 w1 w1' w2).
    - rewrite Hname, TrimSuffix_app. reflexivity.
    - exact Hs1.
    - rewrite Hold1. exact Hsuf.
    - rewrite Hname. apply HasSuffix_app.
    - rewrite Hname, TrimSuffix_app. exact Hr1.
    - rewrite Hold1. exact Hr2. }
  unfold w2, w1'. cbn [names set_names faults]. rewrite Hn1. repeat split.
  - rewrite lookup_insert_ne by congruence.
    rewrite lookup_delete_ne by congruence. apply lookup_insert_eq.
  - apply lookup_insert_eq.
  - exact Hcur_abs.
  - unfold paths. cbn [names set_names]. rewrite Hn1.
    rewrite dom_insert_L, dom_delete_L, dom_insert_L, dom_delete_L, dom_insert_L.
    assert (stem_j ++ FileDest.newExt ∉ dom (names w))
      by (apply not_elem_of_dom; exact Hout_abs).
    set_solver.
  - exact Hfw1.
Qed.

(** A rotation on a disk without faults.  The destination has a complete
    snapshot in its output segment [prev], which ends in [-curr.plog] and
    is in the directory.  If [StartRotate] succeeds, the [EndRotate] that
    follows succeeds too, and leaves the destination as the rotation
    found it, one segment later: [snapOK] is set, no previous segment is
    pending, the output segment is a new name ending in [-curr.plog]
    bound to the file of the open descriptor, and [prev] is gone from the
    directory, its file now under the name ending in [-old.plog]; every
    other entry is where it was. *)
Theorem rotation_renames_segments (fd fd1 : FileDest.fileDest) (w w1 : World) (i : nat) :
  faults w = ∅ →
  FileDest.snapOK fd = true →
  strings.HasSuffix (FileDest.outputFilename fd) FileDest.currExt = true →
  names w !! FileDest.outputFilename fd = Some i →
  FileDest.StartRotate fd w = ((None, fd1), w1) →
  let prev := FileDest.outputFilename fd in
  let cur :=
    strings.TrimSuffix (FileDest.outputFilename fd1) FileDest.newExt ++ FileDest.currExt in
  let old := strings.TrimSuffix prev FileDest.currExt ++ FileDest.oldExt in
  ∃ fd2 w2 f,
    FileDest.EndRotate fd1 w1 = ((None, fd2), w2)
    ∧ FileDest.snapOK fd2 = true ∧ FileDest.oldFilename fd2 = ""
    ∧ FileDest.outputFilename fd2 = cur
    ∧ strings.HasSuffix cur FileDest.currExt = true
    ∧ FileDest.outputFile fd2 = Some f
    ∧ names w2 !! cur = Some (f_ino f)
    ∧ names w2 !! old = Some i
    ∧ names w !! cur = None
    ∧ paths w2 = {[ cur; old ]} ∪ (paths w ∖ {[ prev ]})
    ∧ faults w2 = ∅.
Proof.
  intros Hf Hs Hsuf Hprev Hstart prev cur old.
  destruct (StartRotate_new_segment fd fd1 w w1 Hs Hstart)
    as (f & stem_j & Hold1 & Hs1 & Hof & Hname & Hfree & Hn1 & Hf1).
  assert (Hcur : cur = stem_j ++ FileDest.currExt).
  { unfold cur. now rewrite Hname, TrimSuffix_app. }
  rewrite Hname in Hn1. rewrite Hf in Hf1.
  destruct (EndRotate_after_StartRotate fd1 w w1 prev stem_j f i
              Hf1 Hsuf Hprev Hold1 Hs1 Hname Hfree Hn1)
    as (w2 & Hend & Hc & Ho & Hca & Hp & Hf2).
  rewrite <- Hcur in Hend, Hc, Hca, Hp.
  eexists _, w2, f. split; [exact Hend|].
  cbn [FileDest.snapOK FileDest.oldFilename FileDest.outputFilename
       FileDest.outputFile FileDest.set_snapOK FileDest.set_oldFilename
       FileDest.set_outputFilename].
  repeat split; try assumption.
  unfold cur. apply HasSuffix_app.
Qed.

Lemma rotation_renames_segments_witness :
  let prev := FileDest.outputFilename (fst dest1) in
  let cur :=
    strings.TrimSuffix (FileDest.outputFilename (fst dest2)) FileDest.newExt
    ++ FileDest.currExt in
  let old := strings.TrimSuffix prev FileDest.currExt ++ FileDest.oldExt in
  ∃ fd2 w2 f,
    FileDest.EndRotate (fst dest2) (snd dest2) = ((None, fd2), w2)
    ∧ FileDest.snapOK fd2 = true ∧ FileDest.oldFilename fd2 = ""
    ∧ FileDest.outputFilename fd2 = cur
    ∧ strings.HasSuffix cur FileDest.currExt = true
    ∧ FileDest.outputFile fd2 = Some f
    ∧ names w2 !! cur = Some (f_ino f)
    ∧ names w2 !! old = Some 0%nat
    ∧ names (snd dest1) !! cur = None
    ∧ paths w2 = {[ cur; old ]} ∪ (paths (snd dest1) ∖ {[ prev ]})
    ∧ faults w2 = ∅.
Proof.
  apply (rotation_renames_segments (fst dest1) (fst dest2) (snd dest1) (snd dest2) 0);
    vm_compute; reflexivity.
Defined.

(** ** The concatenating reader *)

Section multi_facts.
Context {R : Type} `{ReadCloser R}.

Lemma Read_loop_cons (p : nat) (r : R) (rest : list R) :
  MultiReadCloser.Read_loop p (r :: rest) =
  let '((bs, err), r') := rc_Read p r in
  if (0 <? List.length bs)%nat || bool_decide (err ≠ Some EOF) then
    (((bs, if bool_decide (err = Some EOF) then None else err), r' :: rest), [])
  else
    let '(_, closed_r) := rc_Close r' in
    let '(res, closed) := MultiReadCloser.Read_loop p rest in
    (res, closed_r :: closed).
Proof. reflexivity. Qed.

Lemma Read_first_source (p : nat) (r : R) (rest : list R)
    (bs : list Byte.byte) (err : option error) (r' : R) :
  rc_Read p r = ((bs, err), r') →
  (bs ≠ [] ∨ err ≠ Some EOF →
   MultiReadCloser.Read p (MultiReadCloser.mkMulti (r :: rest))
   = (((bs, if bool_decide (err = Some EOF) then None else err),
       MultiReadCloser.mkMulti (r' :: rest)), []))
  ∧ (bs = [] → err = Some EOF →
     MultiReadCloser.Read p (MultiReadCloser.mkMulti (r :: rest))
     = let '((res, mr), closed) :=
         MultiReadCloser.Read p (MultiReadCloser.mkMulti rest) in
       ((res, mr), snd (rc_Close r') :: closed)).
Proof.
  intros Hr. unfold MultiReadCloser.Read. cbn [MultiReadCloser.readClosers].
  rewrite Read_loop_cons, Hr. split.
  - intros Hcase.
    assert (Hc : (0 <? List.length bs)%nat || bool_decide (err ≠ Some EOF) = true).
    { destruct Hcase as [Hb|He].
      - destruct bs; [congruence | reflexivity].
      - rewrite (bool_decide_eq_true_2 _ He). apply orb_true_r. }
    now rewrite Hc.
  - intros -> ->. simpl.
    destruct (rc_Close r') as [e rc]. simpl.
    destruct (MultiReadCloser.Read_loop p rest) as [[res rs] closed]. reflexivity.
Qed.

Lemma Read_loop_EOF (p : nat) (rs rs' closed : list R) (bs : list Byte.byte) :
  MultiReadCloser.Read_loop p rs = (((bs, Some EOF), rs'), closed) →
  bs = [] ∧ rs' = [] ∧ List.length closed = List.length rs.
Proof.
  revert rs' closed. induction rs as [|r rest IH]; intros rs' closed.
  - simpl. now intros [= <- <- <-].
  - rewrite Read_loop_cons. destruct (rc_Read p r) as [[bs0 err] r'].
    destruct ((0 <? List.length bs0)%nat || bool_decide (err ≠ Some EOF)) eqn:Hc.
    + destruct (bool_decide (err = Some EOF)) eqn:He; [discriminate|].
      intros [= _ -> _ _]. now apply bool_decide_eq_false in He.
    + destruct (rc_Close r') as [e rc].
      destruct (MultiReadCloser.Read_loop p rest) as [[res rs0] cl].
      intros [= -> <- <-]. destruct (IH rs0 cl eq_refl) as (-> & -> & Hlen).
      simpl. now rewrite Hlen.
Qed.

Lemma Read_EOF_only_when_exhausted (p : nat)
    (mr mr' : MultiReadCloser.multiReadCloser R) (bs : list Byte.byte) (closed : list R) :
  MultiReadCloser.Read p mr = (((bs, Some EOF), mr'), closed) →
  bs = [] ∧ MultiReadCloser.readClosers mr' = []
  ∧ List.length closed = List.length (MultiReadCloser.readClosers mr).
Proof.
  unfold MultiReadCloser.Read.
  destruct (MultiReadCloser.Read_loop p _) as [[res rs] cl] eqn:E.
  intros [= -> <- <-]. simpl. now apply Read_loop_EOF in E.
Qed.

Lemma Close_loop_spec (err : option error) (rs : list R) :
  MultiReadCloser.Close_loop err rs
  = (match err with
     | Some e => Some e
     | None => first_error (map (fun r => fst (rc_Close r)) rs)
     end,
     map (fun r => snd (rc_Close r)) rs).
Proof.
  revert err. induction rs as [|r rest IH]; intros err; simpl.
  - now destruct err.
  - destruct (rc_Close r) as [e r'] eqn:Hc. rewrite IH. simpl.
    destruct err; [reflexivity|]. now destruct e.
Qed.

(** C6.  For every list of sources, [Read] looks at the first one.  If
    it gives bytes, or an error other than [io.EOF], that is the result
    ([io.EOF] next to bytes is held back): the source stays first in the
    list and nothing is closed, not even on an error.  If it gives no byte
    and [io.EOF], it is closed and dropped, and the result is that of
    [Read] on the sources after it.  [Read] gives [io.EOF] only once every
    source is exhausted: it then delivers no byte, has closed all the
    sources that were left, and the list is empty. *)
Theorem Read_from_first_live_source (p : nat) (r : R) (rest : list R)
    (bs : list Byte.byte) (err : option error) (r' : R) :
  rc_Read p r = ((bs, err), r') →
  (bs ≠ [] ∨ err ≠ Some EOF →
   MultiReadCloser.Read p (MultiReadCloser.mkMulti (r :: rest))
   = (((bs, if bool_decide (err = Some EOF) then None else err),
       MultiReadCloser.mkMulti (r' :: rest)), []))
  ∧ (bs = [] → err = Some EOF →
     MultiReadCloser.Read p (MultiReadCloser.mkMulti (r :: rest))
     = let '((res, mr), closed) :=
         MultiReadCloser.Read p (MultiReadCloser.mkMulti rest) in
       ((res, mr), snd (rc_Close r') :: closed))
  ∧ (∀ mr mr' bs' closed,
       MultiReadCloser.Read p mr = (((bs', Some EOF), mr'), closed) →
       bs' = [] ∧ MultiReadCloser.readClosers mr' = []
       ∧ List.length closed = List.length (MultiReadCloser.readClosers mr))
  ∧ MultiReadCloser.Read p (MultiReadCloser.mkMulti ([] : list R))
    = ((([], Some EOF), MultiReadCloser.mkMulti []), []).
Proof.
  intros Hr.
  destruct (Read_first_source p r rest bs err r' Hr) as [Hlive Hdead].
  split; [exact Hlive|]. split; [exact Hdead|]. split; [|reflexivity].
  intros mr mr' bs' closed. apply Read_EOF_only_when_exhausted.
Qed.

(** C10.  [Close] closes every source left, each once and in order,
    reports the first error met and leaves the list empty; after it every
    [Read] gives no byte and [io.EOF] and leaves the list empty, and
    another [Close] closes nothing and returns nil. *)
Theorem Close_closes_all_then_empty (mr : MultiReadCloser.multiReadCloser R) :
  let rs := MultiReadCloser.readClosers mr in
  let mr0 : MultiReadCloser.multiReadCloser R := MultiReadCloser.mkMulti [] in
  MultiReadCloser.Close mr
  = ((first_error (map (fun r => fst (rc_Close r)) rs), mr0),
     map (fun r => snd (rc_Close r)) rs)
  ∧ (∀ p, MultiReadCloser.Read p mr0 = ((([], Some EOF), mr0), []))
  ∧ MultiReadCloser.Close mr0 = ((None, mr0), []).
Proof.
  intros rs mr0. split; [|split; [intros p|]]; try reflexivity.
  unfold MultiReadCloser.Close. fold rs. now rewrite Close_loop_spec.
Qed.

End multi_facts.

Lemma Read_from_first_live_source_witness :
  (MultiReadCloser.Read 4 (MultiReadCloser.mkMulti [failing_reader; mkScript [] false])
   = ((([x01], None),
       MultiReadCloser.mkMulti
         [mkScript [([], Some (Errorf "read error"))] false; mkScript [] false]),
      []))
  ∧ (MultiReadCloser.Read 4
       (MultiReadCloser.mkMulti
          [mkScript [([], Some (Errorf "read error"))] false; mkScript [] false])
     = ((([], Some (Errorf "read error")),
         MultiReadCloser.mkMulti [mkScript [] false; mkScript [] false]),
        []))
  ∧ (MultiReadCloser.Read 4 (MultiReadCloser.mkMulti [mkScript [] false; failing_reader])
     = let '((res, mr), closed) :=
         MultiReadCloser.Read 4 (MultiReadCloser.mkMulti [failing_reader]) in
       ((res, mr), snd (rc_Close (mkScript [] false)) :: closed))
  ∧ ([] : list Byte.byte) = []
    ∧ MultiReadCloser.readClosers (MultiReadCloser.mkMulti ([] : list bufReader)) = []
    ∧ List.length [mkBuf [] true; mkBuf [] true]
      = List.length (MultiReadCloser.readClosers
                       (MultiReadCloser.mkMulti [mkBuf [] false; mkBuf [] false])).
Proof.
  assert (H1 : rc_Read 4 failing_reader
               = (([x01], None), mkScript [([], Some (Errorf "read error"))] false))
    by reflexivity.
  assert (H2 : rc_Read 4 (mkScript [([], Some (Errorf "read error"))] false)
               = (([], Some (Errorf "read error")), mkScript [] false))
    by reflexivity.
  assert (H3 : rc_Read 4 (mkScript [] false) = (([], Some EOF), mkScript [] false))
    by reflexivity.
  assert (H4 : rc_Read 8 (mkBuf [] false) = (([], Some EOF), mkBuf [] false))
    by reflexivity.
  split; [|split; [|split]].
  - destruct (Read_from_first_live_source 4 _ [mkScript [] false] _ _ _ H1)
      as (Hlive & _).
    apply Hlive. left. discriminate.
  - destruct (Read_from_first_live_source 4 _ [mkScript [] false] _ _ _ H2)
      as (Hlive & _).
    apply Hlive. right. discriminate.
  - destruct (Read_from_first_live_source 4 _ [failing_reader] _ _ _ H3)
      as (_ & Hdead & _).
    apply Hdead; reflexivity.
  - destruct (Read_from_first_live_source 8 _ [] _ _ _ H4) as (_ & _ & Heof & _).
    apply (Heof (MultiReadCloser.mkMulti [mkBuf [] false; mkBuf [] false])
             (MultiReadCloser.mkMulti [])).
    reflexivity.
Defined.

(** *** Readers over buffers: the logical concatenation *)

Lemma Read_loop_buffers (p : nat) (rs : list bufReader) :
  (0 < p)%nat →
  match MultiReadCloser.Read_loop p rs with
  | (((bs, err), rs'), _) =>
      remaining rs = (bs ++ remaining rs')%list
      ∧ (remaining rs = [] → err = Some EOF ∧ rs' = [])
      ∧ (remaining rs ≠ [] → err = None ∧ bs ≠ [])
  end.
Proof.
  intros Hp. induction rs as [|r rest IH].
  - simpl. split; [reflexivity|]. split; [auto|]. intros Hc. now destruct Hc.
  - rewrite Read_loop_cons.
    destruct r as [b c]. unfold remaining. simpl.
    destruct b as [|x b]; simpl.
    + destruct (MultiReadCloser.Read_loop p rest) as [[[bs err] rs'] cl].
      exact IH.
    + destruct p as [|p]; [lia|]. simpl.
      rewrite app_assoc, (take_drop p b).
      repeat split; discriminate.
Qed.

Lemma read_all_buffers (fuel p : nat) (rs : list bufReader) :
  (0 < p)%nat → (List.length (remaining rs) < fuel)%nat →
  read_all fuel p (MultiReadCloser.mkMulti rs) = (remaining rs, Some EOF).
Proof.
  intros Hp. revert rs. induction fuel as [|fuel IH]; intros rs Hlen; [lia|].
  cbn [read_all]. unfold MultiReadCloser.Read. cbn [MultiReadCloser.readClosers].
  pose proof (Read_loop_buffers p rs Hp) as Hread.
  destruct (MultiReadCloser.Read_loop p rs) as [[[bs err] rs'] cl].
  destruct Hread as (Hsplit & Hnil & Hcons).
  destruct (remaining rs) as [|x rem] eqn:Hrem.
  - destruct (Hnil eq_refl) as [-> ->]. simpl in Hsplit.
    destruct bs; [reflexivity | discriminate].
  - destruct Hcons as [-> Hbs]; [discriminate|].
    rewrite IH.
    + now rewrite Hsplit.
    + rewrite Hsplit in Hlen. rewrite length_app in Hlen.
      destruct bs; [congruence|]. simpl in Hlen. lia.
Qed.

(** Reading a concatenating reader over buffers to its end, with a
    buffer of at least one byte, delivers the contents of the buffers one
    after the other, in the order of the list, and then [io.EOF]. *)
Theorem MultiReadCloser_concatenates (p : nat) (bufs : list (list Byte.byte)) :
  (0 < p)%nat →
  read_all (Datatypes.S (List.length (concat bufs))) p
    (MultiReadCloser.New (map (fun b => mkBuf b false) bufs))
  = (concat bufs, Some EOF).
Proof.
  intros Hp.
  assert (Hrem : remaining (map (fun b => mkBuf b false) bufs) = concat bufs).
  { unfold remaining. rewrite map_map. simpl. now rewrite map_id. }
  unfold MultiReadCloser.New. rewrite read_all_buffers; [now rewrite Hrem|exact Hp|].
  rewrite Hrem. lia.
Qed.

Lemma MultiReadCloser_concatenates_witness :
  read_all (Datatypes.S (List.length (concat [hello; []; again]))) 3
    (MultiReadCloser.New (map (fun b => mkBuf b false) [hello; []; again]))
  = (concat [hello; []; again], Some EOF).
Proof. apply (MultiReadCloser_concatenates 3 [hello; []; again]). lia. Defined.

(** ** The coordinator *)

Section plog_facts.
Context {event C D S : Type}.
Context `{Gob event} `{LogClient event C}.
Context `{LogDestination event D} `{LogDestination event S}.

Abbreviation pLog := (PLog.pLog C D S).


Lemma frame_refl (pl : pLog) : frame pl pl.
Proof. unfold frame. tauto. Qed.

Lemma frame_trans (pl1 pl2 pl3 : pLog) : frame pl1 pl2 → frame pl2 pl3 → frame pl1 pl3.
Proof.
  unfold frame. intros (R1 & L1 & S1 & C1 & K1 & P1 & Z1 & E1)
    (R2 & L2 & S2 & C2 & K2 & P2 & Z2 & E2).
  repeat split; try congruence.
  - intros Hr. rewrite Z2 by congruence. auto.
  - intros He. rewrite E2; [auto|]. rewrite E1; auto.
Qed.

Lemma Write_frame (p : list Byte.byte) (pl : pLog) : frame pl (snd (PLog.Write p pl)).
Proof.
  unfold PLog.Write. destruct (PLog.errState pl) as [e|] eqn:He; [apply frame_refl|].
  destruct (negb (PLog.rotating pl)) eqn:Hr.
  - apply negb_true_iff in Hr.
    destruct (dWrite p _) as [[n err] d]. simpl.
    destruct (bool_decide (n ≠ len p) || bool_decide (err ≠ None)); simpl.
    + unfold frame. simpl. rewrite Hr, He. repeat split; congruence.
    + destruct (PLog.secDest pl); unfold frame; simpl; rewrite Hr, He;
        repeat split; congruence.
  - apply negb_false_iff in Hr.
    destruct (dWrite p _) as [[n err] d]. simpl.
    destruct (bool_decide (n ≠ len p) || bool_decide (err ≠ None)); simpl.
    + unfold frame. simpl. rewrite He. repeat split; congruence.
    + destruct (PLog.secDest pl); unfold frame; simpl; rewrite He;
        repeat split; congruence.
Qed.

Lemma write_messages_frame (msgs : list (list Byte.byte)) (pl : pLog) :
  frame pl (snd (PLog.write_messages msgs pl)).
Proof.
  revert pl. induction msgs as [|m rest IH]; intros pl; [apply frame_refl|].
  cbn [PLog.write_messages].
  pose proof (Write_frame m pl) as Hw.
  destruct (PLog.Write m pl) as [[n err] pl1]. simpl in Hw.
  destruct err as [e|]; [exact Hw|].
  eapply frame_trans; [exact Hw | apply IH].
Qed.

Lemma Encode_frame (enc : gob_encoder) (ev : event) (pl : pLog) :
  frame pl (snd (PLog.Encode enc ev pl)).
Proof.
  unfold PLog.Encode. destruct (gob_messages enc ev) as [msgs gerr].
  pose proof (write_messages_frame msgs (PLog.set_encoder (Some (gob_next enc ev)) pl)) as Hw.
  destruct (PLog.write_messages msgs _) as [werr pl1]. simpl in Hw.
  assert (Hf : frame pl pl1).
  { eapply frame_trans; [|exact Hw]. unfold frame. simpl. tauto. }
  now destruct werr.
Qed.

(** A failing [Write] leaves its error as the error state. *)
Lemma Write_error (p : list Byte.byte) (pl pl' : pLog) (n : Z) (e : error) :
  PLog.Write p pl = ((n, Some e), pl') → PLog.errState pl' = Some e.
Proof.
  unfold PLog.Write. destruct (PLog.errState pl) as [e0|] eqn:He.
  - intros [= _ <- <-]. exact He.
  - destruct (dWrite p _) as [[n0 err] d].
    destruct (bool_decide (n0 ≠ len p) || bool_decide (err ≠ None)).
    + intros [= _ -> <-]. reflexivity.
    + intros [=].
Qed.

Lemma write_messages_error (msgs : list (list Byte.byte)) (pl pl' : pLog) (e : error) :
  PLog.write_messages msgs pl = (Some e, pl') → PLog.errState pl' = Some e.
Proof.
  revert pl. induction msgs as [|m rest IH]; intros pl; [discriminate|].
  cbn [PLog.write_messages].
  destruct (PLog.Write m pl) as [[n err] pl1] eqn:Hw.
  destruct err as [e0|]; [|apply IH].
  intros [= <- <-]. now apply Write_error in Hw.
Qed.

(** *** The sticky error *)

(** In the error state [Output] returns the error and touches nothing:
    only the first rejection adds a critical line to the log and sets the
    latch; the rejections after it change nothing at all. *)
Lemma Output_in_error_state (ev : event) (pl : pLog) (e : error) :
  PLog.errState pl = Some e →
  ∃ pl', PLog.Output ev pl = (Some e, pl')
    ∧ pl' = PLog.set_pLogError true
              (PLog.set_crit
                 (if PLog.pLogError pl then PLog.crit pl
                  else PLog.crit pl ++ ["Persistence log in error state: " ++ Error e])
                 pl)
    ∧ ∀ ev', PLog.Output ev' pl' = (Some e, pl').
Proof.
  intros He. unfold PLog.Output. rewrite He. eexists. split; [reflexivity|].
  destruct pl as [c sz lim szr ob en pd sd rot es latch cr sch].
  simpl in *. subst es. destruct latch; simpl; split; reflexivity.
Qed.

(** *** The error state is never cleared *)

Lemma Output_frame (ev : event) (pl : pLog) :
  PLog.errState pl ≠ None → PLog.errState (snd (PLog.Output ev pl)) = PLog.errState pl.
Proof.
  intros He. destruct (PLog.errState pl) as [e|] eqn:E; [|congruence].
  destruct (Output_in_error_state ev pl e E) as (pl' & -> & -> & _).
  simpl. exact E.
Qed.

Lemma Output_keeps_error (ev : event) (pl : pLog) :
  PLog.errState pl ≠ None → PLog.errState (snd (PLog.Output ev pl)) ≠ None.
Proof. intros He. now rewrite Output_frame. Qed.

Lemma run_PersistAll_keeps_error (s : script event C) (pl : pLog) :
  PLog.errState pl ≠ None → PLog.errState (PLog.run_PersistAll s pl) ≠ None.
Proof.
  revert pl. induction s as [c|ev k IH]; intros pl He; simpl; [exact He|].
  pose proof (Output_keeps_error ev pl He) as Ho.
  destruct (PLog.Output ev pl) as [err pl1]. now apply IH.
Qed.

Lemma finishRotate_begin_keeps_error (pl : pLog) :
  PLog.errState pl ≠ None → PLog.errState (snd (PLog.finishRotate_begin pl)) ≠ None.
Proof.
  intros He. unfold PLog.finishRotate_begin.
  destruct (dStartRotate _) as [[e|] d]; simpl; [discriminate|].
  unfold PLog.secStartRotate. simpl. now destruct (PLog.secDest pl).
Qed.

Lemma finishRotate_end_keeps_error (pl : pLog) :
  PLog.errState pl ≠ None → PLog.errState (PLog.finishRotate_end pl) ≠ None.
Proof.
  intros He. unfold PLog.finishRotate_end.
  destruct (dEndRotate _) as [[e|] d]; simpl; [discriminate|].
  unfold PLog.secEndRotate. simpl. now destruct (PLog.secDest pl).
Qed.

Lemma finishRotate_keeps_error (pl : pLog) :
  PLog.errState pl ≠ None → PLog.errState (PLog.finishRotate pl) ≠ None.
Proof.
  intros He. unfold PLog.finishRotate.
  pose proof (finishRotate_begin_keeps_error pl He) as Hb.
  destruct (PLog.finishRotate_begin pl) as [[|] pl1]; simpl in Hb; [|exact Hb].
  now apply finishRotate_end_keeps_error, run_PersistAll_keeps_error.
Qed.

Lemma pl_step_keeps_error (pl : pLog) (op : pl_op) :
  PLog.errState pl ≠ None → PLog.errState (pl_step pl op) ≠ None.
Proof.
  intros He. destruct op; simpl.
  - now apply Output_keeps_error.
  - destruct (Write_frame p pl) as (_ & _ & _ & _ & _ & _ & _ & Hk).
    now rewrite Hk.
  - exact He.
  - now apply finishRotate_begin_keeps_error.
  - now apply finishRotate_end_keeps_error.
  - now apply run_PersistAll_keeps_error.
  - now apply finishRotate_keeps_error.
Qed.

(** Nothing the coordinator does clears the error state: once
    [HealthCheck] returns an error it returns one for good, whatever
    [Output]s, sink writes, limit changes and rotations follow, be they
    successful or not, and every later [Output] is rejected. *)
Theorem errState_never_cleared (ops : list pl_op) (pl : pLog) :
  PLog.HealthCheck pl ≠ None →
  PLog.HealthCheck (pl_run ops pl) ≠ None
  ∧ ∀ ev, fst (PLog.Output ev (pl_run ops pl)) = PLog.HealthCheck (pl_run ops pl).
Proof.
  unfold PLog.HealthCheck. intros He.
  assert (Hrun : PLog.errState (pl_run ops pl) ≠ None).
  { revert pl He. unfold pl_run. induction ops as [|op ops IH]; intros pl He; simpl.
    - exact He.
    - now apply IH, pl_step_keeps_error. }
  split; [exact Hrun|]. intros ev.
  destruct (PLog.errState (pl_run ops pl)) as [e|] eqn:E; [|congruence].
  now destruct (Output_in_error_state ev _ e E) as (pl' & -> & _).
Qed.

(** *** Scheduling a rotation *)

Lemma Output_nil_encoder (ev : event) (pl : pLog) :
  PLog.errState pl = None → PLog.encoder pl = None →
  PLog.Output ev pl = (Some PLog.uninitialized, PLog.set_pLogError false pl)
  ∧ PLog.HealthCheck (snd (PLog.Output ev pl)) = None.
Proof.
  intros He Hn. unfold PLog.Output. rewrite He. simpl. rewrite Hn.
  split; [reflexivity|]. simpl. exact He.
Qed.

Lemma Output_scheduling (ev : event) (pl : pLog) :
  let pl' := snd (PLog.Output ev pl) in
  match PLog.errState pl, PLog.encoder pl with
  | None, Some enc =>
      let '(err, pl1) :=
        PLog.Encode enc ev
          (PLog.set_objects (wrap_uint64 (PLog.objects pl + 1))
             (PLog.set_pLogError false pl)) in
      if bool_decide (err = None) && negb (PLog.rotating pl)
         && (PLog.size pl1 >? PLog.sizeLimit pl)%Z
      then PLog.scheduled pl' = Datatypes.S (PLog.scheduled pl)
           ∧ PLog.rotating pl' = true
      else PLog.scheduled pl' = PLog.scheduled pl
           ∧ PLog.rotating pl' = PLog.rotating pl
  | _, _ =>
      PLog.scheduled pl' = PLog.scheduled pl ∧ PLog.rotating pl' = PLog.rotating pl
  end.
Proof.
  intros pl'. subst pl'.
  destruct (PLog.errState pl) as [e|] eqn:He.
  { destruct (Output_in_error_state ev pl e He) as (pl' & -> & -> & _).
    simpl. auto. }
  destruct (PLog.encoder pl) as [enc|] eqn:Hn.
  2:{ destruct (Output_nil_encoder ev pl He Hn) as [-> _]. simpl. auto. }
  unfold PLog.Output. rewrite He. simpl. rewrite Hn.
  pose proof (Encode_frame enc ev
                (PLog.set_objects (wrap_uint64 (PLog.objects pl + 1))
                   (PLog.set_pLogError false pl))) as Hf.
  destruct (PLog.Encode enc ev _) as [err pl1]. simpl in Hf.
  destruct Hf as (Hr & Hl & Hs & _). simpl in Hr, Hl, Hs.
  destruct err as [e|]; simpl; [auto|].
  rewrite Hr, Hl.
  destruct (negb (PLog.rotating pl) && (PLog.size pl1 >? PLog.sizeLimit pl)%Z) eqn:Hc;
    simpl; [|auto].
  apply andb_true_iff in Hc as [Hrot _]. apply negb_true_iff in Hrot.
  unfold PLog.rotate. rewrite Hr, Hrot. simpl. auto.
Qed.

Lemma Output_while_rotating (ev : event) (pl : pLog) :
  PLog.rotating pl = true →
  let pl' := snd (PLog.Output ev pl) in
  PLog.rotating pl' = true
  ∧ PLog.scheduled pl' = PLog.scheduled pl
  ∧ PLog.size pl' = PLog.size pl
  ∧ PLog.sizeLimit pl' = PLog.sizeLimit pl.
Proof.
  intros Hrot pl'. subst pl'. unfold PLog.Output.
  destruct (PLog.errState pl) as [e|] eqn:He.
  { destruct (negb (PLog.pLogError pl)); simpl; auto. }
  simpl. destruct (PLog.encoder pl) as [enc|] eqn:Hn; [|simpl; auto].
  pose proof (Encode_frame enc ev
                (PLog.set_objects (wrap_uint64 (PLog.objects pl + 1))
                   (PLog.set_pLogError false pl))) as Hf.
  destruct (PLog.Encode enc ev _) as [err pl1]. simpl in Hf.
  destruct Hf as (Hr & Hl & Hs & _ & _ & _ & Hz & _). simpl in *.
  specialize (Hz Hrot).
  destruct err as [e|]; simpl; [rewrite Hr, Hrot; auto|].
  rewrite Hr, Hrot. simpl. rewrite Hr, Hrot. auto.
Qed.

(** *** Counting the bytes *)

Lemma wrap_int_range (z : Z) : (- 2 ^ 63 <= wrap_int z < 2 ^ 63)%Z.
Proof.
  unfold wrap_int.
  pose proof (Z.mod_pos_bound (z + 2 ^ 63) (2 ^ 64) ltac:(lia)). lia.
Qed.

Lemma wrap_int_small (z : Z) : (- 2 ^ 63 <= z < 2 ^ 63)%Z → wrap_int z = z.
Proof.
  intros Hz. unfold wrap_int. rewrite Z.mod_small by lia. lia.
Qed.

Lemma wrap_int_add (a b : Z) : wrap_int (wrap_int a + b) = wrap_int (a + b).
Proof.
  unfold wrap_int.
  replace ((a + 2 ^ 63) mod 2 ^ 64 - 2 ^ 63 + b + 2 ^ 63)%Z
    with ((a + 2 ^ 63) mod 2 ^ 64 + b)%Z by lia.
  rewrite Zplus_mod_idemp_l. f_equal. f_equal. lia.
Qed.

Lemma Write_reliable (p : list Byte.byte) (pl : pLog) :
  (∀ q (d : D), fst (dWrite q d) = (len q, None)) →
  PLog.errState pl = None →
  ∃ pl', PLog.Write p pl = ((len p, None), pl')
    ∧ PLog.errState pl' = None
    ∧ PLog.rotating pl' = PLog.rotating pl
    ∧ PLog.objects pl' = PLog.objects pl
    ∧ PLog.encoder pl' = PLog.encoder pl
    ∧ credited pl' = wrap_int (credited pl + len p)
    ∧ uncredited pl' = uncredited pl.
Proof.
  intros Hrel He. unfold PLog.Write. rewrite He.
  unfold credited, uncredited.
  pose proof (Hrel p (PLog.priDest pl)) as Hw.
  destruct (PLog.rotating pl) eqn:Hr; simpl;
    destruct (dWrite p (PLog.priDest pl)) as [[n err] d]; simpl in Hw;
    injection Hw as -> ->;
    rewrite !bool_decide_eq_false_2 by (intros E; now apply E); simpl;
    destruct (PLog.secDest pl); eexists; (split; [reflexivity|]); simpl;
    rewrite Hr; auto 10.
Qed.

Lemma write_messages_reliable (msgs : list (list Byte.byte)) (pl : pLog) :
  (∀ q (d : D), fst (dWrite q d) = (len q, None)) →
  PLog.errState pl = None →
  (- 2 ^ 63 <= credited pl < 2 ^ 63)%Z →
  ∃ pl', PLog.write_messages msgs pl = (None, pl')
    ∧ PLog.errState pl' = None
    ∧ PLog.rotating pl' = PLog.rotating pl
    ∧ PLog.objects pl' = PLog.objects pl
    ∧ PLog.encoder pl' = PLog.encoder pl
    ∧ credited pl' = wrap_int (credited pl + total_len msgs)
    ∧ uncredited pl' = uncredited pl.
Proof.
  intros Hrel. revert pl. induction msgs as [|m rest IH]; intros pl He Hrange.
  - exists pl. simpl. rewrite Z.add_0_r, wrap_int_small by exact Hrange. auto 10.
  - cbn [PLog.write_messages].
    destruct (Write_reliable m pl Hrel He)
      as (pl1 & -> & He1 & Hr1 & Ho1 & Hn1 & Hc1 & Hu1).
    destruct (IH pl1 He1) as (pl2 & -> & He2 & Hr2 & Ho2 & Hn2 & Hc2 & Hu2).
    { rewrite Hc1. apply wrap_int_range. }
    exists pl2. split; [reflexivity|]. repeat split; try congruence.
    rewrite Hc2, Hc1, wrap_int_add. simpl. f_equal. lia.
Qed.

(** Over a destination whose writes never fail or fall short, an
    [Output] that gets to encode returns just what the codec says of the
    event, makes that the error state if it is an error, counts the
    object, and credits the bytes of all the messages written to one
    counter, leaving the other alone: the snapshot counter while a
    rotation is in progress, the post-snapshot counter otherwise. *)
Theorem Output_counts_bytes (ev : event) (pl : pLog) (enc : gob_encoder)
    (msgs : list (list Byte.byte)) (gerr : option error) :
  (∀ q (d : D), fst (dWrite q d) = (len q, None)) →
  PLog.errState pl = None → PLog.encoder pl = Some enc →
  gob_messages enc ev = (msgs, gerr) →
  (- 2 ^ 63 <= credited pl < 2 ^ 63)%Z →
  ∃ pl', PLog.Output ev pl = (gerr, pl')
    ∧ PLog.errState pl' = gerr
    ∧ PLog.objects pl' = wrap_uint64 (PLog.objects pl + 1)
    ∧ PLog.encoder pl' = Some (gob_next enc ev)
    ∧ (if PLog.rotating pl
       then PLog.sizeReplay pl' = wrap_int (PLog.sizeReplay pl + total_len msgs)
            ∧ PLog.size pl' = PLog.size pl
       else PLog.size pl' = wrap_int (PLog.size pl + total_len msgs)
            ∧ PLog.sizeReplay pl' = PLog.sizeReplay pl).
Proof.
  intros Hrel He Hn Hg Hrange. unfold PLog.Output. rewrite He. simpl. rewrite Hn.
  unfold PLog.Encode. rewrite Hg.
  set (pl0 := PLog.set_encoder _ _).
  destruct (write_messages_reliable msgs pl0 Hrel He Hrange)
    as (pl1 & -> & He1 & Hr1 & Ho1 & Hn1 & Hc1 & Hu1).
  unfold credited, uncredited in Hc1, Hu1. rewrite Hr1 in Hc1, Hu1.
  subst pl0. simpl in *.
  assert (Hsizes :
    if PLog.rotating pl
    then PLog.sizeReplay pl1 = wrap_int (PLog.sizeReplay pl + total_len msgs)
         ∧ PLog.size pl1 = PLog.size pl
    else PLog.size pl1 = wrap_int (PLog.size pl + total_len msgs)
         ∧ PLog.sizeReplay pl1 = PLog.sizeReplay pl).
  { destruct (PLog.rotating pl); auto. }
  destruct gerr as [e|].
  - eexists. split; [reflexivity|]. simpl. auto.
  - destruct (negb (PLog.rotating pl1) && _); eexists; (split; [reflexivity|]);
      [unfold PLog.rotate; destruct (PLog.rotating pl1); simpl|]; auto.
Qed.

(** *** Replay *)

Lemma replayed_app (evs1 evs2 : list event) (c c1 : C) :
  replayed evs1 c = Some c1 →
  replayed (evs1 ++ evs2) c = replayed evs2 c1.
Proof.
  revert c. induction evs1 as [|ev rest IH]; intros c; simpl.
  - now intros [= ->].
  - destruct (Replay ev c) as [[e|] c']; [discriminate | apply IH].
Qed.

Lemma replayed_split (evs1 evs2 : list event) (c c2 : C) :
  replayed (evs1 ++ evs2) c = Some c2 →
  ∃ c1, replayed evs1 c = Some c1 ∧ replayed evs2 c1 = Some c2.
Proof.
  revert c. induction evs1 as [|ev rest IH]; intros c; simpl.
  - eauto.
  - destruct (Replay ev c) as [[e|] c']; [discriminate | apply IH].
Qed.

Lemma replay_log_clean (i count : nat) (evs : list event) (tail : source event) (c c' : C) :
  replayed evs c = Some c' →
  PLog.replay_log i count (clean evs ++ tail)%list c
  = PLog.replay_log i (count + List.length evs) tail c'.
Proof.
  revert count c. induction evs as [|ev rest IH]; intros count c; simpl.
  - intros [= ->]. now rewrite Nat.add_0_r.
  - destruct (Replay ev c) as [[e|] c1]; [discriminate|].
    intros Hr. rewrite (IH _ _ Hr). f_equal. lia.
Qed.

Lemma replay_from_clean (i : nat) (evss : list (list event)) (tail : list (source event))
    (c c' : C) :
  replayed (concat evss) c = Some c' →
  PLog.replay_from i (map clean evss ++ tail) c
  = let '(res, closed) := PLog.replay_from (i + List.length evss) tail c' in
    (res, (seq i (List.length evss) ++ closed)%list).
Proof.
  revert i c. induction evss as [|evs rest IH]; intros i c; simpl.
  - intros [= ->]. rewrite Nat.add_0_r.
    now destruct (PLog.replay_from i tail c') as [res closed].
  - intros Hr. apply replayed_split in Hr as (c1 & Hev & Hrest).
    pose proof (replay_log_clean i 0 evs [] c c1 Hev) as Hl.
    rewrite app_nil_r in Hl. rewrite Hl. simpl.
    rewrite (IH _ _ Hrest).
    replace (Datatypes.S i + List.length rest)%nat
      with (i + Datatypes.S (List.length rest))%nat by lia.
    now destruct (PLog.replay_from _ tail c') as [res closed].
Qed.

(** When every replay reader decodes cleanly and the client accepts every
    event, [replay] succeeds: the client has been handed the events of all
    the readers, reader after reader and in the order decoded, and every
    reader has been closed. *)
Theorem replay_delivers_all (evss : list (list event)) (c c' : C) :
  replayed (concat evss) c = Some c' →
  PLog.replay_from 0 (map clean evss) c = ((None, c'), seq 0 (List.length evss)).
Proof.
  intros Hr. pose proof (replay_from_clean 0 evss [] c c' Hr) as Hf.
  rewrite app_nil_r in Hf. rewrite Hf. simpl. now rewrite app_nil_r.
Qed.

Lemma replay_stops_at_first_failure (pre : list (list event)) (evs : list event)
    (rest : source event) (post : list (source event)) (c c' : C) :
  replayed (concat pre ++ evs) c = Some c' →
  (∀ e, e ≠ EOF →
     PLog.replay_from 0 (map clean pre ++ (clean evs ++ inr e :: rest) :: post)%list c
     = ((Some (PLog.decode_failed (List.length pre + 1) (List.length evs) e), c'),
        seq 0 (List.length pre)))
  ∧ (∀ ev e c'', Replay ev c' = (Some e, c'') →
     PLog.replay_from 0 (map clean pre ++ (clean evs ++ inl ev :: rest) :: post)%list c
     = ((Some (PLog.replay_failed (List.length evs + 1) e), c''),
        seq 0 (List.length pre))).
Proof.
  intros Hr. apply replayed_split in Hr as (c1 & Hpre & Hevs). split.
  - intros e He. rewrite (replay_from_clean 0 pre _ c c1 Hpre).
    cbn [PLog.replay_from]. rewrite (replay_log_clean _ 0 evs _ c1 c' Hevs).
    cbn [PLog.replay_log]. rewrite bool_decide_eq_false_2 by exact He.
    simpl. now rewrite app_nil_r.
  - intros ev e c'' Hev. rewrite (replay_from_clean 0 pre _ c c1 Hpre).
    cbn [PLog.replay_from]. rewrite (replay_log_clean _ 0 evs _ c1 c' Hevs).
    cbn [PLog.replay_log]. rewrite Hev. simpl. now rewrite app_nil_r.
Qed.

(** *** Construction and rotation *)

Lemma run_PersistAll_while_rotating (s : script event C) (pl : pLog) :
  PLog.rotating pl = true →
  let pl' := PLog.run_PersistAll s pl in
  PLog.rotating pl' = true
  ∧ PLog.scheduled pl' = PLog.scheduled pl
  ∧ PLog.size pl' = PLog.size pl
  ∧ PLog.sizeLimit pl' = PLog.sizeLimit pl.
Proof.
  revert pl. induction s as [c|ev k IH]; intros pl Hrot; simpl; [auto|].
  destruct (Output_while_rotating ev pl Hrot) as (Hr & Hs & Hz & Hl).
  destruct (PLog.Output ev pl) as [err pl1]. simpl in *.
  destruct (IH err pl1 Hr) as (Hr' & Hs' & Hz' & Hl').
  repeat split; congruence.
Qed.

(** [NewLog] returns either a coordinator and no error, or no
    coordinator and the error, which is then also the error state of the
    abandoned object.  The coordinator returned is not rotating, has the
    default limit of 1 MiB, has scheduled no rotation, and its
    post-snapshot counter is zero whatever the size of the initial
    snapshot: those bytes are not counted towards the limit. *)
Theorem NewLog_returns (d : D) (c : C) :
  let '((log, err), pl) := PLog.NewLog (S := S) d c in
  match log, err with
  | Some pl', None =>
      pl' = pl ∧ PLog.rotating pl = false ∧ PLog.size pl = 0%Z
      ∧ PLog.sizeLimit pl = 1048576%Z ∧ PLog.scheduled pl = 0%nat
  | None, Some e => PLog.errState pl = Some e
  | _, _ => False
  end.
Proof.
  unfold PLog.NewLog, PLog.replay. simpl.
  destruct (PLog.replay_from 0 (dReplayReaders d) c) as [[[e|] c'] closed]; simpl;
    [reflexivity|].
  match goal with
  | |- context [PLog.run_PersistAll ?s ?p] =>
      destruct (run_PersistAll_while_rotating s p eq_refl) as (Hr & Hs & Hz & Hl);
      set (pl1 := PLog.run_PersistAll s p) in *
  end.
  simpl in Hs, Hz, Hl.
  destruct (dEndRotate (PLog.priDest pl1)) as [[e|] d1]; simpl; [reflexivity|].
  unfold PLog.secEndRotate. simpl.
  destruct (PLog.secDest pl1); simpl; auto.
Qed.

(** A rotation task that runs undisturbed, started with the rotation
    flag raised, leaves the post-snapshot counter at zero and schedules
    nothing.  If [StartRotate] on the primary destination fails, the
    error becomes the error state, the client is not asked for a
    snapshot, and the rotation flag stays raised; otherwise the flag is
    lowered at the end, whether [EndRotate] succeeds or not. *)
Theorem finishRotate_outcome (pl : pLog) :
  PLog.rotating pl = true →
  let pl' := PLog.finishRotate pl in
  PLog.size pl' = 0%Z
  ∧ PLog.scheduled pl' = PLog.scheduled pl
  ∧ match fst (dStartRotate (PLog.priDest pl)) with
    | Some e =>
        PLog.rotating pl' = true ∧ PLog.errState pl' = Some e
        ∧ PLog.client pl' = PLog.client pl ∧ PLog.encoder pl' = PLog.encoder pl
    | None => PLog.rotating pl' = false
    end.
Proof.
  intros Hrot pl'. subst pl'. unfold PLog.finishRotate, PLog.finishRotate_begin.
  simpl. destruct (dStartRotate (PLog.priDest pl)) as [[e|] d1]; simpl.
  - unfold PLog.secStartRotate. simpl. destruct (PLog.secDest pl); simpl; auto 10.
  - match goal with
    | |- context [PLog.run_PersistAll ?s ?p] =>
        assert (Hp : PLog.rotating p = true ∧ PLog.scheduled p = PLog.scheduled pl
                     ∧ PLog.size p = 0%Z)
          by (unfold PLog.secStartRotate; simpl; destruct (PLog.secDest pl); simpl; auto);
        destruct Hp as (Hr0 & Hs0 & Hz0);
        destruct (run_PersistAll_while_rotating s p Hr0) as (Hr & Hs & Hz & Hl);
        set (pl1 := PLog.run_PersistAll s p) in *
    end.
    unfold PLog.finishRotate_end.
    destruct (dEndRotate (PLog.priDest pl1)) as [[e|] d2];
      unfold PLog.secEndRotate; simpl; destruct (PLog.secDest pl1); simpl;
      repeat split; congruence.
Qed.

Lemma finishRotate_StartRotate_fails (pl : pLog) (e : error) :
  fst (dStartRotate (PLog.priDest pl)) = Some e →
  PLog.rotating (PLog.finishRotate pl) = PLog.rotating pl
  ∧ PLog.scheduled (PLog.finishRotate pl) = PLog.scheduled pl
  ∧ PLog.errState (PLog.finishRotate pl) = Some e.
Proof.
  intros Hstart. unfold PLog.finishRotate, PLog.finishRotate_begin. simpl.
  destruct (dStartRotate (PLog.priDest pl)) as [[e0|] d1]; simpl in Hstart;
    [|discriminate].
  injection Hstart as ->. unfold PLog.secStartRotate. simpl.
  destruct (PLog.secDest pl); simpl; auto.
Qed.

(** After a rotation whose [StartRotate] failed the coordinator is stuck:
    every [Output] is rejected with that error, the rotation flag stays
    raised and no rotation is ever scheduled again. *)
Theorem failed_StartRotate_is_final (pl : pLog) (e : error) (evs : list event) :
  PLog.rotating pl = true →
  fst (dStartRotate (PLog.priDest pl)) = Some e →
  let pl' := pl_run (map PlOutput evs) (PLog.finishRotate pl) in
  PLog.HealthCheck pl' = Some e
  ∧ PLog.rotating pl' = true
  ∧ PLog.scheduled pl' = PLog.scheduled pl
  ∧ ∀ ev, fst (PLog.Output ev pl') = Some e.
Proof.
  intros Hrot Hstart pl'.
  destruct (finishRotate_StartRotate_fails pl e Hstart) as (Hr & Hs & He).
  rewrite Hrot in Hr.
  assert (Hrun : ∀ p : pLog, PLog.errState p = Some e → PLog.rotating p = true →
            let p' := pl_run (map PlOutput evs) p in
            PLog.errState p' = Some e ∧ PLog.rotating p' = true
            ∧ PLog.scheduled p' = PLog.scheduled p).
  { clear Hs Hr He Hstart Hrot. clear pl'.
    induction evs as [|ev rest IH]; intros p He Hr; simpl; [auto|].
    destruct (Output_while_rotating ev p Hr) as (Hr1 & Hs1 & _).
    pose proof (Output_frame ev p ltac:(congruence)) as He1.
    destruct (IH (snd (PLog.Output ev p))) as (He2 & Hr2 & Hs2);
      [congruence | exact Hr1 |].
    unfold pl_run in *. simpl. repeat split; congruence. }
  destruct (Hrun _ He Hr) as (He' & Hr' & Hs'). fold pl' in He', Hr', Hs'.
  unfold PLog.HealthCheck. repeat split; try congruence.
  intros ev. now destruct (Output_in_error_state ev pl' e He') as (p & -> & _).
Qed.

(** *** Error state, replay and rotation triggers *)

Lemma run_PersistAll_same_error (s : script event C) (pl : pLog) (e : error) :
  PLog.errState pl = Some e → PLog.errState (PLog.run_PersistAll s pl) = Some e.
Proof.
  revert pl. induction s as [c|ev k IH]; intros pl He; simpl; [exact He|].
  pose proof (Output_frame ev pl ltac:(congruence)) as Ho.
  destruct (PLog.Output ev pl) as [err pl1]. simpl in Ho. apply IH. congruence.
Qed.

(** C1 (what the code does).  In error state [e], [HealthCheck] returns
    [e] and every [Output] returns [e] and leaves the error state as it
    is.  A rotation that succeeds does not clear it: when the rotation
    task runs on a coordinator in error state [e], and the [StartRotate]
    and the [EndRotate] it calls on the destination both return nil, the
    task lowers the rotation flag and leaves the coordinator in error
    state [e]: [HealthCheck] still returns [e] and every [Output] still
    returns [e]. *)
Theorem successful_rotation_keeps_error (pl : pLog) (e : error) :
  let started := snd (PLog.finishRotate_begin pl) in
  let snapshot := PLog.run_PersistAll (PersistAll (PLog.client started)) started in
  PLog.HealthCheck pl = Some e →
  fst (dStartRotate (PLog.priDest pl)) = None →
  fst (dEndRotate (PLog.priDest snapshot)) = None →
  (∀ ev, fst (PLog.Output ev pl) = Some e
         ∧ PLog.HealthCheck (snd (PLog.Output ev pl)) = Some e)
  ∧ PLog.HealthCheck (PLog.finishRotate pl) = Some e
  ∧ PLog.rotating (PLog.finishRotate pl) = false
  ∧ ∀ ev, fst (PLog.Output ev (PLog.finishRotate pl)) = Some e.
Proof.
  intros started snapshot. unfold PLog.HealthCheck. intros He Hstart Hend.
  assert (Hfin : PLog.errState (PLog.finishRotate pl) = Some e
                 ∧ PLog.rotating (PLog.finishRotate pl) = false).
  { subst snapshot started. revert Hend.
    unfold PLog.finishRotate, PLog.finishRotate_begin. simpl.
    destruct (dStartRotate (PLog.priDest pl)) as [err d1]. simpl in Hstart.
    subst err. simpl.
    match goal with
    | |- context [PLog.run_PersistAll ?s ?p] =>
        assert (Hp : PLog.errState p = Some e)
          by (unfold PLog.secStartRotate; simpl; destruct (PLog.secDest pl); exact He);
        pose proof (run_PersistAll_same_error s p e Hp) as Hrun;
        set (pl1 := PLog.run_PersistAll s p) in *
    end.
    intros Hend. unfold PLog.finishRotate_end.
    destruct (dEndRotate (PLog.priDest pl1)) as [err d2]. simpl in Hend. subst err.
    unfold PLog.secEndRotate. simpl. destruct (PLog.secDest pl1); simpl; auto. }
  destruct Hfin as [Herr Hrot]. split; [|split; [exact Herr|split; [exact Hrot|]]].
  - intros ev. destruct (Output_in_error_state ev pl e He) as (pl' & -> & -> & _).
    split; [reflexivity | exact He].
  - intros ev. now destruct (Output_in_error_state ev _ e Herr) as (pl' & -> & _).
Qed.

Lemma NewLog_replay_fails (d : D) (c c1 : C) (e : error) (closed : list nat) :
  PLog.replay_from 0 (dReplayReaders d) c = ((Some e, c1), closed) →
  PLog.NewLog (S := S) d c
  = ((None, Some e),
     PLog.set_errState (Some e)
       (PLog.set_client c1
          (PLog.set_encoder (Some gob_NewEncoder)
             (PLog.mkPLog c 0 (1024 * 1024) 0 0 None d None false None false [] 0)))).
Proof.
  intros Hr. unfold PLog.NewLog, PLog.replay. simpl. now rewrite Hr.
Qed.

(** C4 (amended).  [NewLog] replays the readers of the destination in
    order, handing each decoded event to the client.  Whenever the replay
    fails [NewLog] returns no coordinator, together with the error.  When
    a reader fails to decode after the client has accepted the events
    before, the error names the reader, counted from 1, and the number of
    entries replayed from that reader.  When the client refuses an event
    the error gives the position of the event in its reader, from 1, and
    not the reader.  In both cases the client has been handed exactly the
    events decoded before the failure (and the refused one). *)
Theorem replay_failure_aborts_NewLog (d : D) (pre : list (list event))
    (evs : list event) (rest : source event) (post : list (source event)) (c c' : C) :
  replayed (concat pre ++ evs) c = Some c' →
  (∀ e c1 closed,
     PLog.replay_from 0 (dReplayReaders d) c = ((Some e, c1), closed) →
     fst (PLog.NewLog (S := S) d c) = (None, Some e))
  ∧ (∀ e, e ≠ EOF →
     dReplayReaders d = (map clean pre ++ (clean evs ++ inr e :: rest) :: post)%list →
     fst (PLog.NewLog (S := S) d c)
     = (None, Some (PLog.decode_failed (List.length pre + 1) (List.length evs) e))
     ∧ PLog.client (snd (PLog.NewLog (S := S) d c)) = c')
  ∧ (∀ ev e c'', Replay ev c' = (Some e, c'') →
     dReplayReaders d = (map clean pre ++ (clean evs ++ inl ev :: rest) :: post)%list →
     fst (PLog.NewLog (S := S) d c)
     = (None, Some (PLog.replay_failed (List.length evs + 1) e))
     ∧ PLog.client (snd (PLog.NewLog (S := S) d c)) = c'').
Proof.
  intros Hc. destruct (replay_stops_at_first_failure pre evs rest post c c' Hc)
    as [Hdec Hrep].
  split; [|split].
  - intros e c1 closed Hr. now rewrite (NewLog_replay_fails d c c1 e closed Hr).
  - intros e He Hd. specialize (Hdec e He). rewrite <- Hd in Hdec.
    now rewrite (NewLog_replay_fails d c _ _ _ Hdec).
  - intros ev e c'' Hev Hd. specialize (Hrep ev e c'' Hev). rewrite <- Hd in Hrep.
    now rewrite (NewLog_replay_fails d c _ _ _ Hrep).
Qed.

Lemma Write_while_rotating (p : list Byte.byte) (pl : pLog) :
  PLog.errState pl = None → PLog.rotating pl = true →
  PLog.size (snd (PLog.Write p pl)) = PLog.size pl
  ∧ PLog.sizeReplay (snd (PLog.Write p pl)) = wrap_int (PLog.sizeReplay pl + len p).
Proof.
  intros He Hr. unfold PLog.Write. rewrite He, Hr. simpl.
  destruct (dWrite p (PLog.priDest pl)) as [[n err] d].
  destruct (bool_decide (n ≠ len p) || bool_decide (err ≠ None)); simpl; [auto|].
  destruct (PLog.secDest pl); simpl; auto.
Qed.

Lemma NewLog_sizeLimit (d : D) (c : C) :
  PLog.sizeLimit (snd (PLog.NewLog (S := S) d c)) = 1048576%Z.
Proof.
  unfold PLog.NewLog, PLog.replay. simpl.
  destruct (PLog.replay_from 0 (dReplayReaders d) c) as [[[e|] c'] closed]; simpl;
    [reflexivity|].
  match goal with
  | |- context [PLog.run_PersistAll ?s ?p] =>
      destruct (run_PersistAll_while_rotating s p eq_refl) as (_ & _ & _ & Hl);
      set (pl1 := PLog.run_PersistAll s p) in *
  end.
  simpl in Hl.
  destruct (dEndRotate (PLog.priDest pl1)) as [[e|] d1]; simpl;
    unfold PLog.secEndRotate; simpl; destruct (PLog.secDest pl1); simpl; exact Hl.
Qed.

(** C5.  [Output] starts a rotation task exactly when the encoding
    succeeded, no rotation was in progress, and the post-snapshot counter
    as the encoding left it is strictly above the limit; it then also
    raises the rotation flag.  In every other case (error state, nil
    encoder, failed encoding, rotation in progress, counter within the
    limit) it neither starts a task nor touches the flag.  The limit of a
    coordinator made by [NewLog] is 1 MiB.  A write through the sink
    while a rotation is in progress is credited to the snapshot counter
    and leaves the post-snapshot counter alone, and so does every
    [Output] made meanwhile. *)
Theorem Output_schedules_rotation_over_limit :
  (∀ (ev : event) (pl : pLog),
     let pl' := snd (PLog.Output ev pl) in
     match PLog.errState pl, PLog.encoder pl with
     | None, Some enc =>
         let '(err, pl1) :=
           PLog.Encode enc ev
             (PLog.set_objects (wrap_uint64 (PLog.objects pl + 1))
                (PLog.set_pLogError false pl)) in
         if bool_decide (err = None) && negb (PLog.rotating pl)
            && (PLog.size pl1 >? PLog.sizeLimit pl)%Z
         then PLog.scheduled pl' = Datatypes.S (PLog.scheduled pl)
              ∧ PLog.rotating pl' = true
         else PLog.scheduled pl' = PLog.scheduled pl
              ∧ PLog.rotating pl' = PLog.rotating pl
     | _, _ =>
         PLog.scheduled pl' = PLog.scheduled pl
         ∧ PLog.rotating pl' = PLog.rotating pl
     end)
  ∧ (∀ (d : D) (c : C),
       PLog.sizeLimit (snd (PLog.NewLog (S := S) d c)) = (1024 * 1024)%Z)
  ∧ (∀ (p : list Byte.byte) (pl : pLog),
       PLog.errState pl = None → PLog.rotating pl = true →
       PLog.size (snd (PLog.Write p pl)) = PLog.size pl
       ∧ PLog.sizeReplay (snd (PLog.Write p pl)) = wrap_int (PLog.sizeReplay pl + len p))
  ∧ (∀ (ev : event) (pl : pLog),
       PLog.rotating pl = true →
       PLog.size (snd (PLog.Output ev pl)) = PLog.size pl
       ∧ PLog.scheduled (snd (PLog.Output ev pl)) = PLog.scheduled pl
       ∧ PLog.rotating (snd (PLog.Output ev pl)) = true).
Proof.
  split; [|split; [|split]].
  - exact Output_scheduling.
  - exact NewLog_sizeLimit.
  - exact Write_while_rotating.
  - intros ev pl Hr. destruct (Output_while_rotating ev pl Hr) as (H3 & H4 & H5 & _).
    auto.
Qed.

(** C9.  [Output] with a nil encoder and no error state fails with
    "uninitialized persistence log" before anything is counted or
    written, and the failure is not made the error state: [HealthCheck]
    still returns nil.  A later [Output] is not blocked by it: with the
    encoder still nil it fails in the same way, again without becoming
    sticky, and once an encoder is bound it goes on exactly as if the
    failed [Output] had never happened. *)
Theorem Output_nil_encoder_is_not_sticky (ev : event) (pl : pLog) :
  PLog.errState pl = None → PLog.encoder pl = None →
  let pl' := snd (PLog.Output ev pl) in
  PLog.Output ev pl = (Some PLog.uninitialized, PLog.set_pLogError false pl)
  ∧ PLog.HealthCheck pl' = None
  ∧ (∀ ev', PLog.Output ev' pl' = (Some PLog.uninitialized, pl'))
  ∧ (∀ enc ev', PLog.Output ev' (PLog.set_encoder (Some enc) pl')
                = PLog.Output ev' (PLog.set_encoder (Some enc) pl)).
Proof.
  intros He Hn pl'. subst pl'.
  destruct (Output_nil_encoder ev pl He Hn) as [Hout Hh].
  split; [exact Hout|]. split; [exact Hh|]. rewrite Hout. simpl. split.
  - intros ev'.
    destruct (Output_nil_encoder ev' (PLog.set_pLogError false pl) He Hn) as [-> _].
    reflexivity.
  - intros enc ev'. unfold PLog.Output. simpl. now rewrite He.
Qed.

End plog_facts.

(** *** The coordinator on the examples *)

Lemma successful_rotation_keeps_error_witness :
  (∀ ev, fst (PLog.Output ev log_error)
         = Some (Errorf "gob: type not registered for interface")
         ∧ PLog.HealthCheck (snd (PLog.Output ev log_error))
           = Some (Errorf "gob: type not registered for interface"))
  ∧ PLog.HealthCheck (PLog.finishRotate log_error)
    = Some (Errorf "gob: type not registered for interface")
  ∧ PLog.rotating (PLog.finishRotate log_error) = false
  ∧ ∀ ev, fst (PLog.Output ev (PLog.finishRotate log_error))
          = Some (Errorf "gob: type not registered for interface").
Proof.
  apply (successful_rotation_keeps_error log_error
           (Errorf "gob: type not registered for interface")).
  - vm_compute. reflexivity.
  - reflexivity.
  - reflexivity.
Defined.

(** C4 (as stated, refuted).  The client refuses the first event of the
    only reader in one replay, and the first event of the second reader
    in another: the two errors are the same, so the error of a refused
    event does not carry the index of the reader. *)
Lemma replay_error_omits_reader_index :
  fst (fst (PLog.replay_from 0 [clean [x00]] (mkClient [])))
  = Some (Errorf "replay failed on entry 1: invalid replay record type")
  ∧ fst (fst (PLog.replay_from 0 [clean []; clean [x00]] (mkClient [])))
    = Some (Errorf "replay failed on entry 1: invalid replay record type").
Proof. split; vm_compute; reflexivity. Qed.

Lemma replay_failure_aborts_NewLog_witness :
  fst (PLog.NewLog (S := noopDest) dest_refused (mkClient []))
  = (None, Some (Errorf "replay failed on entry 2: invalid replay record type"))
  ∧ (fst (PLog.NewLog (S := noopDest) dest_corrupt (mkClient []))
     = (None, Some (PLog.decode_failed (List.length ([] : list (list Byte.byte)) + 1)
                      (List.length [x01; x02])
                      (Errorf "gob: encoded unsigned integer out of range")))
     ∧ PLog.client (snd (PLog.NewLog (S := noopDest) dest_corrupt (mkClient [])))
       = mkClient [x01; x02])
  ∧ (fst (PLog.NewLog (S := noopDest) dest_refused (mkClient []))
     = (None, Some (PLog.replay_failed (List.length [x01] + 1)
                      (Errorf "invalid replay record type")))
     ∧ PLog.client (snd (PLog.NewLog (S := noopDest) dest_refused (mkClient [])))
       = mkClient [x01]).
Proof.
  assert (H1 : replayed (concat [] ++ [x01]) (mkClient []) = Some (mkClient [x01]))
    by (vm_compute; reflexivity).
  assert (H2 : replayed (concat [] ++ [x01; x02]) (mkClient [])
               = Some (mkClient [x01; x02])) by (vm_compute; reflexivity).
  destruct (replay_failure_aborts_NewLog (S := noopDest) dest_refused [] [x01]
              [inl x02] [] (mkClient []) (mkClient [x01]) H1) as (Hany & _ & Hrep).
  destruct (replay_failure_aborts_NewLog (S := noopDest) dest_corrupt [] [x01; x02]
              [] [] (mkClient []) (mkClient [x01; x02]) H2) as (_ & Hdec & _).
  split; [|split].
  - apply (Hany _ (mkClient [x01]) []). vm_compute. reflexivity.
  - apply Hdec; [discriminate | vm_compute; reflexivity].
  - apply (Hrep x00 _ (mkClient [x01])); vm_compute; reflexivity.
Defined.

Lemma Output_schedules_rotation_over_limit_witness :
  (PLog.scheduled (snd (PLog.Output x03 log_small))
   = Datatypes.S (PLog.scheduled log_small)
   ∧ PLog.rotating (snd (PLog.Output x03 log_small)) = true)
  ∧ PLog.sizeLimit (snd (PLog.NewLog (S := noopDest) mkNoop (mkClient [x01; x02])))
    = (1024 * 1024)%Z
  ∧ (PLog.size (snd (PLog.Write [x01; x02] log_rotating)) = PLog.size log_rotating
     ∧ PLog.sizeReplay (snd (PLog.Write [x01; x02] log_rotating))
       = wrap_int (PLog.sizeReplay log_rotating + len [x01; x02]))
  ∧ (PLog.size (snd (PLog.Output x04 log_rotating)) = PLog.size log_rotating
     ∧ PLog.scheduled (snd (PLog.Output x04 log_rotating)) = PLog.scheduled log_rotating
     ∧ PLog.rotating (snd (PLog.Output x04 log_rotating)) = true).
Proof.
  destruct (Output_schedules_rotation_over_limit
              (event := Byte.byte) (C := testClient) (D := noopDest) (S := noopDest))
    as (Hsched & Hlim & Hwrite & Hout).
  split; [|split; [|split]].
  - generalize (Hsched x03 log_small). vm_compute. intros H. exact H.
  - apply Hlim.
  - apply Hwrite; reflexivity.
  - apply Hout. reflexivity.
Defined.

Lemma Output_nil_encoder_is_not_sticky_witness :
  let pl' := snd (PLog.Output x01 (PLog.set_encoder None log0)) in
  PLog.Output x01 (PLog.set_encoder None log0)
  = (Some PLog.uninitialized, PLog.set_pLogError false (PLog.set_encoder None log0))
  ∧ PLog.HealthCheck pl' = None
  ∧ (∀ ev', PLog.Output ev' pl' = (Some PLog.uninitialized, pl'))
  ∧ (∀ enc ev', PLog.Output ev' (PLog.set_encoder (Some enc) pl')
                = PLog.Output ev' (PLog.set_encoder (Some enc)
                                     (PLog.set_encoder None log0))).
Proof.
  apply (Output_nil_encoder_is_not_sticky x01 (PLog.set_encoder None log0));
    reflexivity.
Defined.

Lemma errState_never_cleared_witness :
  PLog.HealthCheck (pl_run [PlFinishRotate; PlOutput x01] log_error) ≠ None
  ∧ ∀ ev, fst (PLog.Output ev (pl_run [PlFinishRotate; PlOutput x01] log_error))
          = PLog.HealthCheck (pl_run [PlFinishRotate; PlOutput x01] log_error).
Proof.
  apply (errState_never_cleared [PlFinishRotate; PlOutput x01] log_error).
  vm_compute. discriminate.
Defined.

Lemma Output_counts_bytes_witness :
  ∃ pl', PLog.Output x03 log_small = (None, pl')
    ∧ PLog.errState pl' = None
    ∧ PLog.objects pl' = wrap_uint64 (PLog.objects log_small + 1)
    ∧ PLog.encoder pl' = Some (gob_next true x03)
    ∧ (if PLog.rotating log_small
       then PLog.sizeReplay pl' = wrap_int (PLog.sizeReplay log_small + total_len [[x03]])
            ∧ PLog.size pl' = PLog.size log_small
       else PLog.size pl' = wrap_int (PLog.size log_small + total_len [[x03]])
            ∧ PLog.sizeReplay pl' = PLog.sizeReplay log_small).
Proof.
  apply (Output_counts_bytes x03 log_small true [[x03]] None).
  - intros q d. reflexivity.
  - reflexivity.
  - reflexivity.
  - reflexivity.
  - assert (E : credited log_small = 0%Z) by (vm_compute; reflexivity).
    rewrite E. lia.
Defined.

Lemma replay_delivers_all_witness :
  PLog.replay_from 0 (map clean [[x01; x02]; [x03]]) (mkClient [])
  = ((None, mkClient [x01; x02; x03]), seq 0 (List.length [[x01; x02]; [x03]])).
Proof.
  apply (replay_delivers_all [[x01; x02]; [x03]]). vm_compute. reflexivity.
Defined.

Lemma finishRotate_outcome_witness :
  let pl' := PLog.finishRotate log_rotating in
  PLog.size pl' = 0%Z
  ∧ PLog.scheduled pl' = PLog.scheduled log_rotating
  ∧ match fst (dStartRotate (event := Byte.byte) (PLog.priDest log_rotating)) with
    | Some e =>
        PLog.rotating pl' = true ∧ PLog.errState pl' = Some e
        ∧ PLog.client pl' = PLog.client log_rotating
        ∧ PLog.encoder pl' = PLog.encoder log_rotating
    | None => PLog.rotating pl' = false
    end.
Proof. apply (finishRotate_outcome log_rotating). reflexivity. Defined.

Lemma failed_StartRotate_is_final_witness :
  let e := Errorf ("Cannot create new log file: open " ++ next_segment
                   ++ ": no space left on device") in
  let pl' := pl_run (map PlOutput [x01; x02]) (PLog.finishRotate log_full_disk) in
  PLog.HealthCheck pl' = Some e
  ∧ PLog.rotating pl' = true
  ∧ PLog.scheduled pl' = PLog.scheduled log_full_disk
  ∧ ∀ ev, fst (PLog.Output ev pl') = Some e.
Proof.
  apply (failed_StartRotate_is_final log_full_disk
           (Errorf ("Cannot create new log file: open " ++ next_segment
                    ++ ": no space left on device")) [x01; x02]).
  - reflexivity.
  - vm_compute. reflexivity.
Defined.
